(** * Randomised depth-first maze carving (maze.py)

    A shallow embedding of [Maze.__init__], [Maze.generate],
    [Maze.display] and [main], and the proofs of the structural
    properties of the generated maze and of what the program shows.  *)

From Stdlib Require Import ZArith Lia List Ascii.
From stdpp Require Import base decidable option list gmap sets relations
  strings.

Local Open Scope Z_scope.

(** ** Data model *)

(** The four characters a grid position may hold. *)
Inductive cell := WALL | PATH | START | END.

#[global] Instance cell_eq_dec : EqDecision cell.
Proof. solve_decision. Defined.

(** A grid position [(x, y)]: column [x], row [y]; the code reads it as
    [self.grid[y][x]]. *)
Abbreviation pos := (Z * Z)%type.
Abbreviation grid_t := (list (list cell)).

Inductive exn := IndexError | OverflowError.

Inductive outcome (A : Type) :=
  | Done (a : A)
  | Raise (e : exn)
  | OutOfFuel.
Arguments Done {A} a.
Arguments Raise {A} e.
Arguments OutOfFuel {A}.

#[global] Instance outcome_ret : MRet outcome := λ A a, Done a.
#[global] Instance outcome_bind : MBind outcome := λ A B k o,
  match o with
  | Done a => k a
  | Raise e => Raise e
  | OutOfFuel => OutOfFuel
  end.

(** What the run does, in program order. *)
Inductive event :=
  | Write (x y : Z) (v : cell)      (* self.grid[y][x] = v *)
  | Append (p : pos)                (* stack.append(p) *)
  | Pop (p : pos)                   (* stack.pop() *)
  | Display (g : grid_t)            (* self.display() *)
  | Sleep.                          (* time.sleep(0.02) *)

#[global] Instance event_eq_dec : EqDecision event.
Proof. solve_decision. Defined.

Record Maze := {
  width : Z;
  height : Z;
  grid_w : Z;
  grid_h : Z;
  grid : grid_t;
  start : pos;
  end_ : pos
}.

(** ** Module constants *)

(** Text is a string of bytes, a character outside ASCII standing as
    its UTF-8 encoding.  [ESC] is ['\033'], [NL] is ['\n']. *)
Definition ESC : string := String "027"%char EmptyString.
Definition NL : string := String "010"%char EmptyString.

(** The character of a cell value: [WALL = '█'], [PATH = ' '],
    [START = 'S'], [END = 'E']. *)
Definition cell_char (c : cell) : string :=
  match c with
  | WALL => "█"
  | PATH => " "
  | START => "S"
  | END => "E"
  end.

Definition COLORS : gmap string string :=
  list_to_map
    [("wall"%string, ESC +:+ "[90m");
     ("path"%string, ESC +:+ "[0m");
     ("start"%string, ESC +:+ "[32m");
     ("end"%string, ESC +:+ "[31m");
     ("visited"%string, ESC +:+ "[34m");
     ("reset"%string, ESC +:+ "[0m")].

(** ** Module level: the size of the maze *)

(** [COLS, ROWS = os.get_terminal_size()], and [80, 24] when the call
    raises; [probe] is what the call gives, [None] when it raises. *)
Definition terminal_size (probe : option (Z * Z)) : Z * Z :=
  default (80, 24) probe.

Definition MAZE_WIDTH (COLS : Z) : Z := (COLS - 1) / 2.
Definition MAZE_HEIGHT (ROWS : Z) : Z := (ROWS - 2) / 2.

(** ** List indexing as Python does it *)

(** A subscript [i] of a list of length [n]: negative subscripts count
    from the end, anything else out of range raises. *)
Definition py_index (n : nat) (i : Z) : option nat :=
  if decide (0 ≤ i < Z.of_nat n) then Some (Z.to_nat i)
  else if decide (- Z.of_nat n ≤ i < 0) then Some (Z.to_nat (Z.of_nat n + i))
  else None.

(** [self.grid[y][x] = v] *)
Definition grid_set (g : grid_t) (x y : Z) (v : cell) : outcome grid_t :=
  match py_index (length g) y with
  | None => Raise IndexError
  | Some r =>
      match g !! r with
      | None => Raise IndexError
      | Some row =>
          match py_index (length row) x with
          | None => Raise IndexError
          | Some c => Done (<[r := <[c := v]> row]> g)
          end
      end
  end.

(** Reading a position with non-negative coordinates; [None] outside. *)
Definition grid_get (g : grid_t) (p : pos) : option cell :=
  if decide (0 ≤ p.1 ∧ 0 ≤ p.2) then
    row ← g !! Z.to_nat p.2; row !! Z.to_nat p.1
  else None.

(** ** Maze.__init__ *)

Definition __init__ (width height : Z) : Maze :=
  let grid_w := width * 2 + 1 in
  let grid_h := height * 2 + 1 in
  {| width := width;
     height := height;
     grid_w := grid_w;
     grid_h := grid_h;
     grid := replicate (Z.to_nat grid_h) (replicate (Z.to_nat grid_w) WALL);
     start := (1, 1);
     end_ := (grid_w - 2, grid_h - 2) |}.

(** [sys.maxsize], the largest size of a list (64-bit build): a factor
    of a list product has to lie between [- maxsize - 1] and
    [maxsize]. *)
Definition maxsize : Z := 2 ^ 63 - 1.

(** The call [Maze(width, height)].  [__init__] has no [raise] and
    checks nothing.  The one step of it that can fail is the product
    [[WALL] * self.grid_w], evaluated once for each row of
    [range(self.grid_h)]: with a factor outside the range of a list size
    it raises [OverflowError]; with a negative factor inside the range
    it gives the empty row.  With no row to build the product is not
    evaluated.  Memory is taken to suffice: no [MemoryError]. *)
Definition Maze_new (width height : Z) : outcome Maze :=
  let grid_w := width * 2 + 1 in
  let grid_h := height * 2 + 1 in
  if decide (1 ≤ grid_h ∧ ¬ (- maxsize - 1 ≤ grid_w ≤ maxsize))
  then Raise OverflowError
  else Done (__init__ width height).

(** ** Maze.generate *)

Definition directions : list (Z * Z) := [(0, -2); (0, 2); (-2, 0); (2, 0)].

(** The [for dx, dy in directions] loop: the unvisited cells two grid
    positions away, each with the offset of the wall in between. *)
Definition neighbors (gw gh : Z) (visited : gset pos) (x y : Z)
  : list (Z * Z * Z * Z) :=
  flat_map (λ '(dx, dy),
    let nx := x + dx in
    let ny := y + dy in
    if decide (1 ≤ nx < gw - 1 ∧ 1 ≤ ny < gh - 1 ∧ (nx, ny) ∉ visited)
    then [(nx, ny, dx / 2, dy / 2)] else []) directions.

(** Local state of [generate] while the loop runs.  [draws] counts the
    calls of [random.choice]; [trace] logs the run. *)
Record state := {
  st_grid : grid_t;
  st_stack : list pos;
  st_visited : gset pos;
  st_draws : nat;
  st_trace : list event
}.

(** [random.choice(l)] on its [k]-th call, with the random source [rnd]. *)
Definition choice {A} (rnd : nat → nat) (k : nat) (l : list A) (d : A) : A :=
  nth (rnd k mod length l)%nat l d.

(** Every pick is a member of the list, and every member can be picked:
    the random sources range over all sequences of choices. *)
Lemma choice_elem_of {A} (rnd : nat → nat) k (l : list A) d :
  l ≠ [] → choice rnd k l d ∈ l.
Proof.
  intros Hl. apply list_elem_of_In, nth_In, Nat.mod_upper_bound.
  by destruct l.
Qed.

Lemma choice_any {A} (rnd : nat → nat) k (l : list A) d i :
  (i < length l)%nat → rnd k = i → choice rnd k l d = nth i l d.
Proof. intros Hi Hk. unfold choice. by rewrite Hk, Nat.mod_small. Qed.

Section Generate.
Variables (gw gh : Z) (animate : bool) (rnd : nat → nat).

(** One iteration of [while stack:], for a non-empty stack. *)
Definition loop_body (s : state) : outcome state :=
  match last (st_stack s) with
  | None => Raise IndexError
  | Some (x, y) =>
      match neighbors gw gh (st_visited s) x y with
      | [] =>
          Done {| st_grid := st_grid s;
                  st_stack := removelast (st_stack s);
                  st_visited := st_visited s;
                  st_draws := st_draws s;
                  st_trace := st_trace s ++ [Pop (x, y)] |}
      | d :: ns =>
          let '(nx, ny, wx, wy) := choice rnd (st_draws s) (d :: ns) d in
          g1 ← grid_set (st_grid s) (x + wx) (y + wy) PATH;
          g2 ← grid_set g1 nx ny PATH;
          Done {| st_grid := g2;
                  st_stack := st_stack s ++ [(nx, ny)];
                  st_visited := {[(nx, ny)]} ∪ st_visited s;
                  st_draws := S (st_draws s);
                  st_trace := st_trace s ++
                    [Write (x + wx) (y + wy) PATH; Write nx ny PATH;
                     Append (nx, ny)] ++
                    (if animate then [Display g2; Sleep] else []) |}
      end
  end.

(** [while stack: ...] *)
Fixpoint loop (fuel : nat) (s : state) : outcome state :=
  match st_stack s with
  | [] => Done s
  | _ :: _ =>
      match fuel with
      | O => OutOfFuel
      | S fuel' => s' ← loop_body s; loop fuel' s'
      end
  end.
End Generate.

(** The list [neighbors] the next iteration builds: empty for a backtrack
    step, non-empty for a visit step. *)
Definition candidates (gw gh : Z) (s : state) : list (Z * Z * Z * Z) :=
  match last (st_stack s) with
  | Some (x, y) => neighbors gw gh (st_visited s) x y
  | None => []
  end.

(** The state on entry to the loop. *)
Definition entry (g : grid_t) : state :=
  {| st_grid := g;
     st_stack := [(1, 1)];
     st_visited := {[(1, 1)]};
     st_draws := 0;
     st_trace := [Write 1 1 PATH] |}.

(** [generate]: the maze with its final grid, and the trace of the run. *)
Definition generate (fuel : nat) (rnd : nat → nat) (m : Maze) (animate : bool)
  : outcome (Maze * list event) :=
  g0 ← grid_set (grid m) 1 1 PATH;
  s ← loop (grid_w m) (grid_h m) animate rnd fuel (entry g0);
  g1 ← grid_set (st_grid s) 1 1 START;
  g2 ← grid_set g1 (grid_w m - 2) (grid_h m - 2) END;
  Done ({| width := width m; height := height m;
           grid_w := grid_w m; grid_h := grid_h m;
           grid := g2; start := start m; end_ := end_ m |},
        st_trace s ++
          [Write 1 1 START; Write (grid_w m - 2) (grid_h m - 2) END]).

(** ** Maze.display *)

(** The text written for one cell: the [if cell == WALL ... else] of the
    inner loop.  Every key looked up is a key of [COLORS]. *)
Definition display_cell (c : cell) : string :=
  if decide (c = WALL) then
    (COLORS !!! "wall"%string) +:+ cell_char WALL
  else if decide (c = START) then
    (COLORS !!! "start"%string) +:+ cell_char START
  else if decide (c = END) then
    (COLORS !!! "end"%string) +:+ cell_char END
  else
    (COLORS !!! "path"%string) +:+ cell_char PATH.

(** Everything one call writes to [sys.stdout], in order: the cursor
    home sequence, for each row its cells and a newline, and the colour
    reset.  The [flush] that ends the call is an [io] event of its
    own. *)
Definition display (g : grid_t) : string :=
  (ESC +:+ "[H") +:+
  foldr (λ row out,
           foldr (λ c out, display_cell c +:+ out) (NL +:+ out) row)
        (COLORS !!! "reset"%string) g.

(** ** main *)

(** What the program does to the outside: text written to [sys.stdout],
    a flush of it, a pause of so many milliseconds. *)
Inductive io :=
  | Stdout (s : string)
  | Flush
  | Pause (ms : Z).

(** What a step of [generate] does to the outside. *)
Definition io_of_event (e : event) : list io :=
  match e with
  | Display g => [Stdout (display g); Flush]
  | Sleep => [Pause 20]
  | _ => []
  end.

(** The first [print] of [main] (clear the screen, cursor home, hide
    the cursor; flushed), the [print] of its [finally] clause (show the
    cursor, reset the colours), and the [print] after the final
    display, which ends its line. *)
Definition opening : list io :=
  [Stdout (ESC +:+ "[2J" +:+ ESC +:+ "[H" +:+ ESC +:+ "[?25l"); Flush].

Definition closing : list io :=
  [Stdout (ESC +:+ "[?25h" +:+ ESC +:+ "[0m")].

Definition generated : io :=
  Stdout (NL +:+ "Maze generated! Press Ctrl+C to exit." +:+ NL).

(** [main]: how it ends and what it has done to the outside by then.
    [fuel] bounds the rounds of the loop of [generate] and the rounds
    of the [while True] loop; [OutOfFuel] is a run cut off by that
    bound, still going.  [ctrl_c = Some k]: a [KeyboardInterrupt]
    arrives in the [while True] loop, after [k] whole seconds of it;
    [ctrl_c = None]: none arrives.  The [while True] loop has no other
    way out.  An [IndexError] is not caught by [except
    KeyboardInterrupt]: the [finally] clause runs and the error goes on
    to the caller.  The size of a terminal is a C [int], so that
    [Maze(MAZE_WIDTH, MAZE_HEIGHT)] is built of list sizes far inside
    their range and the call hands back the object
    ([Maze_new_terminal]). *)
Definition main (probe : option (Z * Z)) (rnd : nat → nat) (fuel : nat)
    (ctrl_c : option nat) : outcome () * list io :=
  let '(COLS, ROWS) := terminal_size probe in
  let maze := __init__ (MAZE_WIDTH COLS) (MAZE_HEIGHT ROWS) in
  match generate fuel rnd maze true with
  | Raise e => (Raise e, opening ++ closing)
  | OutOfFuel => (OutOfFuel, opening)
  | Done (maze, t) =>
      let shown :=
        (t ≫= io_of_event) ++
        [Stdout (display (grid maze)); Flush; generated] in
      match ctrl_c with
      | Some k =>
          if decide (k < fuel)%nat
          then (Done (),
                opening ++ shown ++ replicate k (Pause 1000) ++ closing)
          else (OutOfFuel, opening ++ shown ++ replicate fuel (Pause 1000))
      | None => (OutOfFuel, opening ++ shown ++ replicate fuel (Pause 1000))
      end
  end.

(** ** Reading the maze off the grid *)

(** The logical cells of a [w × h] maze sit at the odd grid positions. *)
Definition logical (w h : Z) (p : pos) : Prop :=
  ∃ cx cy, 0 ≤ cx < w ∧ 0 ≤ cy < h ∧ p = (2 * cx + 1, 2 * cy + 1).

(** Two positions two steps apart along one axis. *)
Definition adjacent (a b : pos) : Prop :=
  ∃ d, d ∈ directions ∧ b = (a.1 + d.1, a.2 + d.2).

(** The grid position between two adjacent cells. *)
Definition mid (a b : pos) : pos := ((a.1 + b.1) / 2, (a.2 + b.2) / 2).

(** A carved passage joins the logical cells [a] and [b]. *)
Definition linked (w h : Z) (g : grid_t) (a b : pos) : Prop :=
  logical w h a ∧ logical w h b ∧ adjacent a b ∧
  grid_get g (mid a b) = Some PATH.

(** Consecutive members of [l] are joined by passages. *)
Fixpoint chain (w h : Z) (g : grid_t) (l : list pos) : Prop :=
  match l with
  | a :: (b :: _) as l' => linked w h g a b ∧ chain w h g l'
  | _ => True
  end.

(** A simple cycle of passages: at least three distinct cells in a ring. *)
Definition cycle (w h : Z) (g : grid_t) (l : list pos) : Prop :=
  (3 ≤ length l)%nat ∧ NoDup l ∧ chain w h g l ∧
  ∃ a z, head l = Some a ∧ last l = Some z ∧ linked w h g z a.

(** All positions of a [gw × gh] grid, and those with exactly one even
    coordinate: the places where a wall between two cells can stand. *)
Definition positions (gw gh : Z) : list pos :=
  x ← seqZ 0 gw; (λ y, (x, y)) <$> seqZ 0 gh.

(** The logical cells of a [w × h] maze, listed. *)
Definition cells (w h : Z) : list pos :=
  cx ← seqZ 0 w; (λ cy, (2 * cx + 1, 2 * cy + 1)) <$> seqZ 0 h.

Definition is_slot (p : pos) : Prop := Z.odd (p.1 + p.2) = true.

#[global] Instance is_slot_dec p : Decision (is_slot p).
Proof. unfold is_slot. apply _. Defined.

(** The intersection posts: both coordinates even. *)
Definition post (p : pos) : Prop := Z.even p.1 = true ∧ Z.even p.2 = true.

Definition carved (g : grid_t) (p : pos) : Prop :=
  is_slot p ∧ grid_get g p = Some PATH.

#[global] Instance carved_dec g p : Decision (carved g p).
Proof. unfold carved. apply _. Defined.

(** The number of carved passages between logical cells. *)
Definition passages (gw gh : Z) (g : grid_t) : nat :=
  length (filter (carved g) (positions gw gh)).

(** How often a cell was put on the stack: the stack starts out holding
    the origin, every other entry comes from an [append]. *)
Definition is_append_of (c : pos) (e : event) : bool :=
  match e with Append p => bool_decide (p = c) | _ => false end.
Definition is_pop_of (c : pos) (e : event) : bool :=
  match e with Pop p => bool_decide (p = c) | _ => false end.

Definition pushes (c : pos) (t : list event) : nat :=
  ((if decide (c = (1, 1)%Z) then 1 else 0) +
   length (filter (is_append_of c) t))%nat.

Definition pops (c : pos) (t : list event) : nat :=
  length (filter (is_pop_of c) t).

Definition is_display (e : event) : bool :=
  match e with Display _ => true | _ => false end.
Definition is_append (e : event) : bool :=
  match e with Append _ => true | _ => false end.
Definition is_pop (e : event) : bool :=
  match e with Pop _ => true | _ => false end.

(** Snapshots emitted, visit steps and backtrack steps of a run. *)
Definition emissions (t : list event) : nat := length (filter is_display t).
Definition visit_steps (t : list event) : nat := length (filter is_append t).
Definition backtrack_steps (t : list event) : nat := length (filter is_pop t).

(** The events of one step of the loop.  A backtrack step logs its pop
    and nothing else.  A visit step logs its two writes and its push
    and, with animation, the snapshot and the pause that follow them. *)
Definition backtrack_block (b : list event) : Prop := ∃ c, b = [Pop c].

Definition visit_block (animate : bool) (b : list event) : Prop :=
  ∃ x y n g,
    b = [Write x y PATH; Write n.1 n.2 PATH; Append n] ++
        (if animate then [Display g; Sleep] else []).

Definition step_block (animate : bool) (b : list event) : Prop :=
  backtrack_block b ∨ visit_block animate b.

(** The grids a run has shown, in order. *)
Definition snapshots (t : list event) : list grid_t :=
  omap (λ e, match e with Display g => Some g | _ => None end) t.

(** ** Routes through the maze *)

(** A route from [a] to [b]: a list of cells without repetition, each
    joined to the next by a passage. *)
Definition path (w h : Z) (g : grid_t) (a b : pos) (l : list pos) : Prop :=
  head l = Some a ∧ last l = Some b ∧ NoDup l ∧ chain w h g l.

(** A position one can stand on, and a step from one to a position
    next to it (left, right, up or down). *)
Definition open (g : grid_t) (p : pos) : Prop :=
  is_Some (grid_get g p) ∧ grid_get g p ≠ Some WALL.

#[global] Instance open_dec g p : Decision (open g p).
Proof. unfold open. apply _. Defined.

Definition beside (p q : pos) : Prop :=
  Z.abs (p.1 - q.1) + Z.abs (p.2 - q.2) = 1.

Definition walk (g : grid_t) (p q : pos) : Prop :=
  open g p ∧ open g q ∧ beside p q.

(** The outer ring of a [gw × gh] grid. *)
Definition border (gw gh : Z) (p : pos) : Prop :=
  (0 ≤ p.1 < gw ∧ 0 ≤ p.2 < gh) ∧
  (p.1 = 0 ∨ p.1 = gw - 1 ∨ p.2 = 0 ∨ p.2 = gh - 1).

(** ** Running [generate] again, and without animation *)

(** The grid [g] of a run that started from the grid [g0], against the
    grid [gf] of the same run started from walls only: what the run has
    opened is open, the rest is as it was in [g0]. *)
Definition over (g0 gf g : grid_t) : Prop :=
  ∀ q, grid_get g q =
       if decide (grid_get gf q = Some WALL) then grid_get g0 q
       else grid_get gf q.

Definition is_output (e : event) : bool :=
  match e with Display _ | Sleep => true | _ => false end.

(** A trace without what it shows. *)
Definition quiet (t : list event) : list event :=
  filter (λ e, is_output e = false) t.

Definition hush (s : state) : state :=
  {| st_grid := st_grid s; st_stack := st_stack s;
     st_visited := st_visited s; st_draws := st_draws s;
     st_trace := quiet (st_trace s) |}.

(** ** What a terminal shows *)

(** The text left when the escape sequences are taken out.  A sequence
    is [ESC], an opening square bracket, any parameter bytes and a final
    byte from [@] to [~]; an [ESC] before any other byte takes that one
    byte with it. *)
Inductive mode := Text | Escape | Params.

Definition final_byte (a : ascii) : bool :=
  ((64 <=? nat_of_ascii a) && (nat_of_ascii a <=? 126))%nat.

Fixpoint plain_from (md : mode) (s : string) : string :=
  match s with
  | EmptyString => EmptyString
  | String a s' =>
      match md with
      | Text =>
          if Ascii.eqb a "027" then plain_from Escape s'
          else String a (plain_from Text s')
      | Escape =>
          if Ascii.eqb a "[" then plain_from Params s'
          else plain_from Text s'
      | Params =>
          if final_byte a then plain_from Text s' else plain_from Params s'
      end
  end.

Definition plain (s : string) : string := plain_from Text s.

(** The grid as lines of characters, one line for each row. *)
Definition lines (g : grid_t) : string :=
  foldr (λ row out,
           foldr (λ c out, cell_char c +:+ out) (NL +:+ out) row)
        EmptyString g.

(** Reading lines of cell characters back into a grid. *)
Fixpoint grid_of_lines (s : string) (row : list cell) : option grid_t :=
  match s with
  | EmptyString => if row is [] then Some [] else None
  | String a s1 =>
      if Ascii.eqb a "010" then (row ::.) <$> grid_of_lines s1 []
      else if Ascii.eqb a " " then grid_of_lines s1 (row ++ [PATH])
      else if Ascii.eqb a "S" then grid_of_lines s1 (row ++ [START])
      else if Ascii.eqb a "E" then grid_of_lines s1 (row ++ [END])
      else if Ascii.eqb a "226" then
        match s1 with
        | String b (String c s3) =>
            if Ascii.eqb b "150" && Ascii.eqb c "136"
            then grid_of_lines s3 (row ++ [WALL]) else None
        | _ => None
        end
      else None
  end.

(** What showing one frame of the animation does. *)
Definition frame (g : grid_t) : list io :=
  [Stdout (display g); Flush; Pause 20].

(** ** Grid reads and writes *)

Section Grid.
Variables gw gh : Z.

Definition shaped (g : grid_t) : Prop :=
  length g = Z.to_nat gh ∧ Forall (λ row, length row = Z.to_nat gw) g.

Definition in_grid (p : pos) : Prop := 0 ≤ p.1 < gw ∧ 0 ≤ p.2 < gh.

Lemma py_index_in_range n i :
  0 ≤ i < Z.of_nat n → py_index n i = Some (Z.to_nat i).
Proof. intros Hi. unfold py_index. by rewrite decide_True. Qed.

Lemma py_index_above n i : Z.of_nat n ≤ i → py_index n i = None.
Proof.
  intros Hi. unfold py_index.
  rewrite decide_False by lia. by rewrite decide_False by lia.
Qed.

Lemma shaped_row g r row :
  shaped g → g !! r = Some row → length row = Z.to_nat gw.
Proof. intros [_ Hr] Hrow. by eapply (proj1 (Forall_lookup _ _) Hr). Qed.

Lemma shaped_get_is_Some g p :
  shaped g → in_grid p → is_Some (grid_get g p).
Proof.
  intros Hs [Hx Hy]. unfold grid_get. rewrite decide_True by lia.
  destruct (lookup_lt_is_Some_2 g (Z.to_nat p.2)) as [row Hrow];
    [destruct Hs; lia|].
  rewrite Hrow. simpl. apply lookup_lt_is_Some_2.
  rewrite (shaped_row _ _ _ Hs Hrow). lia.
Qed.

Lemma shaped_get_Some g p c :
  shaped g → grid_get g p = Some c → in_grid p.
Proof.
  intros Hs. unfold grid_get. case_decide as Hp; [|done].
  destruct (g !! Z.to_nat p.2) as [row|] eqn:Hrow; [|done]. simpl.
  intros Hc. pose proof (shaped_row _ _ _ Hs Hrow) as Hlen.
  apply lookup_lt_Some in Hrow, Hc. destruct Hs as [Hl _].
  unfold in_grid. lia.
Qed.

(** A write inside a well-shaped grid succeeds, keeps the shape and
    changes that one position only. *)
Lemma grid_set_spec g x y v :
  shaped g → in_grid (x, y) →
  ∃ g', grid_set g x y v = Done g' ∧ shaped g' ∧
        ∀ q, grid_get g' q = if decide (q = (x, y)) then Some v
                             else grid_get g q.
Proof.
  intros Hs [Hx Hy]. simpl in Hx, Hy. unfold grid_set.
  pose proof Hs as [Hl Hr].
  rewrite py_index_in_range by lia.
  destruct (lookup_lt_is_Some_2 g (Z.to_nat y)) as [row Hrow]; [lia|].
  rewrite Hrow. pose proof (shaped_row _ _ _ Hs Hrow) as Hlen.
  rewrite py_index_in_range by lia.
  eexists. split; [done|]. split.
  - split; [by rewrite length_insert|].
    apply Forall_insert; [done|]. by rewrite length_insert.
  - intros [qx qy]. unfold grid_get. simpl.
    destruct (decide ((qx, qy) = (x, y))) as [Hq|Hq].
    + injection Hq as -> ->. rewrite decide_True by lia.
      rewrite list_lookup_insert_eq by lia. simpl.
      apply list_lookup_insert_eq. lia.
    + case_decide as Hnn; [|done].
      destruct (decide (qy = y)) as [->|Hy'].
      * rewrite list_lookup_insert_eq by lia. simpl. rewrite Hrow. simpl.
        apply list_lookup_insert_ne. intros ?. apply Hq. f_equal. lia.
      * rewrite list_lookup_insert_ne by lia. done.
Qed.

(** Beyond the last row or column a write raises. *)
Lemma grid_set_raises g x y v :
  shaped g → 0 ≤ x → 0 ≤ y → gh ≤ y ∨ gw ≤ x →
  grid_set g x y v = Raise IndexError.
Proof.
  intros Hs Hx0 Hy0 Hout. unfold grid_set. pose proof Hs as [Hl Hr].
  destruct (py_index (length g) y) as [r|] eqn:Hy; [|done].
  destruct (g !! r) as [row|] eqn:Hrow; [|done].
  pose proof (shaped_row _ _ _ Hs Hrow) as Hlen.
  destruct Hout as [Hout|Hout].
  - rewrite py_index_above in Hy; [done|lia].
  - rewrite py_index_above; [done|lia].
Qed.
End Grid.

(** ** Geometry of cells, walls and posts *)

Lemma odd_true_iff z : Z.odd z = true ↔ ∃ k, z = 2 * k + 1.
Proof. apply Z.odd_spec. Qed.

Lemma even_true_iff z : Z.even z = true ↔ ∃ k, z = 2 * k.
Proof. apply Z.even_spec. Qed.

Lemma elem_of_directions d :
  d ∈ directions ↔ d = (0, -2) ∨ d = (0, 2) ∨ d = (-2, 0) ∨ d = (2, 0).
Proof. unfold directions. rewrite !elem_of_cons, elem_of_nil. tauto. Qed.

Lemma adjacent_cases a b :
  adjacent a b ↔
    b = (a.1, a.2 - 2) ∨ b = (a.1, a.2 + 2) ∨
    b = (a.1 - 2, a.2) ∨ b = (a.1 + 2, a.2).
Proof.
  unfold adjacent. split.
  - intros (d & Hd & ->). apply elem_of_directions in Hd.
    destruct Hd as [-> | [-> | [-> | ->]]]; simpl;
      [left|right; left|right; right; left|right; right; right];
      f_equal; lia.
  - intros Hb.
    destruct Hb as [-> | [-> | [-> | ->]]];
      [exists (0, -2)|exists (0, 2)|exists (-2, 0)|exists (2, 0)];
      (split; [apply elem_of_directions; tauto|simpl; f_equal; lia]).
Qed.

Lemma adjacent_sym a b : adjacent a b → adjacent b a.
Proof.
  rewrite !adjacent_cases. destruct a as [ax ay], b as [bx by_]. simpl.
  intros [H|[H|[H|H]]]; injection H as -> ->;
    [right; left|left|right; right; right|right; right; left];
    f_equal; lia.
Qed.

Lemma adjacent_ne a b : adjacent a b → a ≠ b.
Proof.
  rewrite adjacent_cases. destruct a as [ax ay]. simpl.
  intros [-> | [-> | [-> | ->]]] [= ]; lia.
Qed.

Lemma mid_sym a b : mid a b = mid b a.
Proof. unfold mid. f_equal; f_equal; lia. Qed.

Lemma half_eq a q : a = 2 * q → a / 2 = q.
Proof. intros ->. rewrite Z.mul_comm. apply Z.div_mul. lia. Qed.

Lemma mid_cases a b :
  adjacent a b →
  (b = (a.1, a.2 - 2) ∧ mid a b = (a.1, a.2 - 1)) ∨
  (b = (a.1, a.2 + 2) ∧ mid a b = (a.1, a.2 + 1)) ∨
  (b = (a.1 - 2, a.2) ∧ mid a b = (a.1 - 1, a.2)) ∨
  (b = (a.1 + 2, a.2) ∧ mid a b = (a.1 + 1, a.2)).
Proof.
  rewrite adjacent_cases. destruct a as [x y]. unfold mid. simpl.
  intros [-> | [-> | [-> | ->]]]; simpl;
    [left|right; left|right; right; left|right; right; right];
    (split; [done|]); f_equal; apply half_eq; lia.
Qed.

(** The wall the code opens, [(x + dx // 2, y + dy // 2)], is the
    position between the two cells. *)
Lemma wall_is_mid x y d :
  d ∈ directions →
  (x + d.1 / 2, y + d.2 / 2) = mid (x, y) (x + d.1, y + d.2).
Proof.
  intros Hd. apply elem_of_directions in Hd.
  destruct Hd as [-> | [-> | [-> | ->]]]; unfold mid; simpl;
    try change (0 / 2) with 0; try change (-2 / 2) with (-1);
    try change (2 / 2) with 1; f_equal; symmetry; apply half_eq; lia.
Qed.

Lemma logical_not_slot w h p : logical w h p → ¬ is_slot p.
Proof.
  intros (cx & cy & _ & _ & ->). unfold is_slot. simpl.
  rewrite odd_true_iff. intros [k Hk]. lia.
Qed.

Lemma logical_not_post w h p : logical w h p → ¬ post p.
Proof.
  intros (cx & cy & _ & _ & ->) [[k Hk]%even_true_iff _]. simpl in Hk. lia.
Qed.

Lemma slot_not_post p : is_slot p → ¬ post p.
Proof.
  unfold is_slot. intros [k Hk]%odd_true_iff
    [[i Hi]%even_true_iff [j Hj]%even_true_iff]. lia.
Qed.

Lemma mid_is_slot w h a b : logical w h a → adjacent a b → is_slot (mid a b).
Proof.
  intros (cx & cy & _ & _ & ->) Hab. unfold is_slot.
  destruct (mid_cases _ _ Hab) as [[_ ->] | [[_ ->] | [[_ ->] | [_ ->]]]];
    simpl; apply odd_true_iff;
    [exists (cx + cy)|exists (cx + cy + 1)|exists (cx + cy)|exists (cx + cy + 1)];
    lia.
Qed.

(** A slot determines the two cells it separates. *)
Lemma mid_inj w h a b a' b' :
  logical w h a → logical w h a' → adjacent a b → adjacent a' b' →
  mid a b = mid a' b' → (a = a' ∧ b = b') ∨ (a = b' ∧ b = a').
Proof.
  intros (cx & cy & _ & _ & ->) (cx' & cy' & _ & _ & ->) Hab Hab'.
  destruct (mid_cases _ _ Hab) as [[-> ->] | [[-> ->] | [[-> ->] | [-> ->]]]];
  destruct (mid_cases _ _ Hab') as [[-> ->] | [[-> ->] | [[-> ->] | [-> ->]]]];
    simpl; intros [= ]; first [lia | left; split; f_equal; lia
                              | right; split; f_equal; lia].
Qed.

(** ** Position lists and counting *)

Lemma elem_of_positions gw gh p : p ∈ positions gw gh ↔ in_grid gw gh p.
Proof.
  unfold positions, in_grid. rewrite list_elem_of_bind. split.
  - intros (x & Hp & Hx). apply list_elem_of_fmap in Hp as (y & -> & Hy).
    apply elem_of_seqZ in Hx, Hy. simpl. lia.
  - intros [Hx Hy]. exists p.1. split.
    + apply list_elem_of_fmap. exists p.2. split; [by destruct p|].
      apply elem_of_seqZ. lia.
    + apply elem_of_seqZ. lia.
Qed.

Lemma NoDup_positions gw gh : NoDup (positions gw gh).
Proof.
  unfold positions. apply NoDup_bind.
  - intros x1 x2 p _ _ (y1 & -> & _)%list_elem_of_fmap
      (y2 & [= -> _] & _)%list_elem_of_fmap. done.
  - intros x _. apply NoDup_fmap_2; [|apply NoDup_seqZ].
    intros y1 y2 [= ]. done.
  - apply NoDup_seqZ.
Qed.

Lemma elem_of_cells w h p : p ∈ cells w h ↔ logical w h p.
Proof.
  unfold cells, logical. rewrite list_elem_of_bind. split.
  - intros (cx & Hp & Hx). apply list_elem_of_fmap in Hp as (cy & -> & Hy).
    apply elem_of_seqZ in Hx, Hy. exists cx, cy. split; [lia|]. split; [lia|done].
  - intros (cx & cy & Hx & Hy & ->). exists cx. split.
    + apply list_elem_of_fmap. exists cy. split; [done|].
      apply elem_of_seqZ. lia.
    + apply elem_of_seqZ. lia.
Qed.

Lemma NoDup_cells w h : NoDup (cells w h).
Proof.
  unfold cells. apply NoDup_bind.
  - intros x1 x2 p _ _ (y1 & -> & _)%list_elem_of_fmap
      (y2 & [= Hx _] & _)%list_elem_of_fmap. lia.
  - intros x _. apply NoDup_fmap_2; [|apply NoDup_seqZ].
    intros y1 y2 [= ]. lia.
  - apply NoDup_seqZ.
Qed.

Lemma length_bind_const {A B} (f : A → list B) (l : list A) (k : nat) :
  (∀ x, length (f x) = k) → length (l ≫= f) = (length l * k)%nat.
Proof.
  intros Hf. induction l as [|x l IH]; [done|].
  rewrite bind_cons, length_app, IH, Hf. simpl. lia.
Qed.

Lemma length_cells w h : 0 ≤ w → 0 ≤ h → length (cells w h) = Z.to_nat (w * h).
Proof.
  intros Hw Hh. unfold cells.
  rewrite (length_bind_const _ _ (Z.to_nat h)).
  - rewrite length_seqZ. lia.
  - intros x. by rewrite length_fmap, length_seqZ.
Qed.

Lemma length_filter_same {A} (P Q : A → Prop)
    `{∀ x, Decision (P x)} `{∀ x, Decision (Q x)} (l : list A) :
  (∀ x, x ∈ l → (P x ↔ Q x)) → length (filter P l) = length (filter Q l).
Proof.
  induction l as [|x l IH]; intros Hsame; [done|].
  rewrite !filter_cons.
  assert (P x ↔ Q x) as Hx by (apply Hsame; left).
  assert (length (filter P l) = length (filter Q l)) as Hl
    by (apply IH; intros y Hy; apply Hsame; by right).
  destruct (decide (P x)) as [Hp|Hp].
  - rewrite decide_True by tauto. simpl. by rewrite Hl.
  - rewrite decide_False by tauto. done.
Qed.

(** Turning one more member of a duplicate-free list from rejected to
    accepted makes the filtered list one longer. *)
Lemma length_filter_flip {A} (P Q : A → Prop)
    `{∀ x, Decision (P x)} `{∀ x, Decision (Q x)} (l : list A) (m : A) :
  NoDup l → m ∈ l → ¬ P m → Q m → (∀ x, x ≠ m → (P x ↔ Q x)) →
  length (filter Q l) = S (length (filter P l)).
Proof.
  intros Hnd Hm HP HQ Hsame. induction Hnd as [|x l Hx Hnd IH].
  - by apply elem_of_nil in Hm.
  - apply elem_of_cons in Hm as [<-|Hm].
    + rewrite (filter_cons_True Q) by done.
      rewrite (filter_cons_False P) by done. simpl. f_equal.
      apply length_filter_same.
      intros y Hy. symmetry. apply Hsame. intros ->. done.
    + assert (x ≠ m) as Hne by (intros ->; done).
      rewrite !filter_cons. destruct (decide (P x)) as [Hp|Hp].
      * rewrite decide_True by (by apply Hsame). simpl. by rewrite IH.
      * rewrite decide_False by (by rewrite <-Hsame). by rewrite IH.
Qed.

(** ** General facts on lists, sets and the initial grid *)

Lemma elem_of_snoc {A} (l : list A) (x y : A) :
  y ∈ l ++ [x] ↔ y ∈ l ∨ y = x.
Proof. by rewrite elem_of_app, list_elem_of_singleton. Qed.

Lemma elem_of_add (n p : pos) (vis : gset pos) :
  p ∈ {[n]} ∪ vis ↔ p = n ∨ p ∈ vis.
Proof. by rewrite elem_of_union, elem_of_singleton. Qed.

Lemma count_app {A} (P : A → Prop) `{∀ x, Decision (P x)} (l k : list A) :
  length (filter P (l ++ k)) =
  (length (filter P l) + length (filter P k))%nat.
Proof. by rewrite filter_app, length_app. Qed.

Lemma count_cons (f : event → bool) (e : event) (l : list event) :
  length (filter f (e :: l)) =
  ((if f e then 1 else 0) + length (filter f l))%nat.
Proof. rewrite filter_cons. by destruct (f e). Qed.

Lemma init_shaped w h :
  shaped (w * 2 + 1) (h * 2 + 1) (grid (__init__ w h)).
Proof.
  split; simpl; [by rewrite length_replicate|].
  apply Forall_replicate. by rewrite length_replicate.
Qed.

Lemma init_get w h p c :
  grid_get (grid (__init__ w h)) p = Some c → c = WALL.
Proof.
  unfold grid_get. simpl. case_decide; [|done].
  destruct (replicate _ _ !! Z.to_nat p.2) as [row|] eqn:Hrow; [|done].
  apply lookup_replicate in Hrow as [-> _]. simpl.
  by intros [-> _]%lookup_replicate.
Qed.

Lemma length_filter_none {A} (P : A → Prop) `{∀ x, Decision (P x)} l :
  (∀ x, x ∈ l → ¬ P x) → length (filter P l) = 0%nat.
Proof.
  induction l as [|x l IH]; intros Hn; [done|].
  rewrite filter_cons_False by (apply Hn; by left).
  apply IH. intros y Hy. apply Hn. by right.
Qed.

(** ** One iteration of the loop, abstractly *)

Section Carving.
Variables w h : Z.
Hypothesis Hw : 1 ≤ w.
Hypothesis Hh : 1 ≤ h.
Variable animate : bool.
#[local] Set Default Proof Using "Hw Hh".

Local Abbreviation gw := (w * 2 + 1).
Local Abbreviation gh := (h * 2 + 1).

Lemma logical_in_grid p : logical w h p → in_grid gw gh p.
Proof. intros (cx & cy & ? & ? & ->). unfold in_grid. simpl. lia. Qed.

Lemma origin_logical : logical w h (1, 1).
Proof. exists 0, 0. repeat split; (lia || done). Qed.

Lemma mid_in_grid a b : logical w h a → adjacent a b → in_grid gw gh (mid a b).
Proof.
  intros (cx & cy & ? & ? & ->) Hab. unfold in_grid.
  destruct (mid_cases _ _ Hab)
    as [[_ ->] | [[_ ->] | [[_ ->] | [_ ->]]]]; simpl; lia.
Qed.

(** The range test of the code selects the logical cells. *)
Lemma in_range_logical x y d :
  logical w h (x, y) → d ∈ directions →
  ((1 ≤ x + d.1 < gw - 1 ∧ 1 ≤ y + d.2 < gh - 1) ↔
   logical w h (x + d.1, y + d.2)).
Proof.
  intros (cx & cy & ? & ? & [= -> ->]) Hd. apply elem_of_directions in Hd.
  split.
  - intros [? ?].
    destruct Hd as [-> | [-> | [-> | ->]]]; simpl in *;
      [exists cx, (cy - 1)|exists cx, (cy + 1)
      |exists (cx - 1), cy|exists (cx + 1), cy];
      (split; [lia|]); (split; [lia|]); f_equal; lia.
  - intros (cx' & cy' & ? & ? & [= Hx Hy]). lia.
Qed.

Lemma elem_of_neighbors vis x y e :
  e ∈ neighbors gw gh vis x y ↔
  ∃ d, d ∈ directions ∧
       (1 ≤ x + d.1 < gw - 1 ∧ 1 ≤ y + d.2 < gh - 1) ∧
       ((x + d.1, y + d.2) ∉ vis) ∧
       e = (x + d.1, y + d.2, d.1 / 2, d.2 / 2).
Proof.
  unfold neighbors. rewrite list_elem_of_In, in_flat_map. split.
  - intros ([dx dy] & Hd & He). apply list_elem_of_In in Hd.
    exists (dx, dy). simpl. case_decide as Hc; [|by destruct He].
    destruct He as [<-|[]]. naive_solver.
  - intros ([dx dy] & Hd & Hr & Hv & ->).
    exists (dx, dy). split; [by apply list_elem_of_In|]. simpl in *.
    rewrite decide_True by tauto. by left.
Qed.

(** What a visit step logs: the two writes, the push, and with
    animation the snapshot and the pause. *)
Definition visit_events (c n : pos) (g' : grid_t) : list event :=
  [Write (mid c n).1 (mid c n).2 PATH; Write n.1 n.2 PATH; Append n] ++
  (if animate then [Display g'; Sleep] else []).
Arguments visit_events : simpl never.

(** The two kinds of step: a backtrack pops the stack and nothing else;
    a visit opens the wall towards an unvisited neighbour [n] of the
    current cell [c], opens [n] and pushes it. *)
Inductive trans : state → state → Prop :=
  | trans_backtrack g stk c vis k t :
      (∀ q, adjacent c q → logical w h q → q ∈ vis) →
      trans (Build_state g (stk ++ [c]) vis k t)
            (Build_state g stk vis k (t ++ [Pop c]))
  | trans_visit g g' stk c n vis k t :
      adjacent c n → logical w h n → n ∉ vis →
      shaped gw gh g' →
      (∀ q, grid_get g' q =
            if decide (q = n ∨ q = mid c n) then Some PATH
            else grid_get g q) →
      trans (Build_state g (stk ++ [c]) vis k t)
            (Build_state g' ((stk ++ [c]) ++ [n]) ({[n]} ∪ vis) (S k)
               (t ++ visit_events c n g')).

(** The part of the invariant that keeps the code inside the grid. *)
Definition safe (s : state) : Prop :=
  shaped gw gh (st_grid s) ∧ ∀ p, p ∈ st_stack s → logical w h p.

Lemma loop_body_trans rnd s :
  safe s → st_stack s ≠ [] →
  ∃ s', loop_body gw gh animate rnd s = Done s' ∧ trans s s'.
Proof.
  destruct s as [g stk vis k t]. intros [Hs Hl] Hne. simpl in *.
  destruct (exists_last Hne) as (stk' & [x y] & ->).
  unfold loop_body. simpl. rewrite last_snoc.
  assert (logical w h (x, y)) as Hc by (apply Hl, elem_of_app; right; by left).
  destruct (neighbors gw gh vis x y) as [|e0 ns] eqn:Hn.
  - eexists. split; [done|]. rewrite removelast_last.
    apply trans_backtrack. intros q (d & Hd & ->) Hq. simpl in *.
    destruct (decide ((x + d.1, y + d.2) ∈ vis)) as [|Hnv]; [done|].
    assert ((x + d.1, y + d.2, d.1 / 2, d.2 / 2) ∈ neighbors gw gh vis x y)
      as Hin.
    { apply elem_of_neighbors. exists d.
      by rewrite (in_range_logical x y d Hc Hd). }
    rewrite Hn in Hin. by apply elem_of_nil in Hin.
  - set (e := choice rnd k (e0 :: ns) e0).
    assert (e ∈ neighbors gw gh vis x y) as He.
    { rewrite Hn. apply list_elem_of_In. apply nth_In.
      apply Nat.mod_upper_bound. done. }
    apply elem_of_neighbors in He as (d & Hd & Hr & Hv & He).
    rewrite He. clear He e.
    apply (in_range_logical x y d Hc Hd) in Hr.
    pose proof (wall_is_mid x y d Hd) as Hm.
    set (c := (x, y)) in *. set (n := (x + d.1, y + d.2)) in *.
    assert (adjacent c n) as Hadj by (by exists d).
    pose proof (mid_in_grid _ _ Hc Hadj) as Hmg.
    destruct (mid c n) as [mx my] eqn:Hmid. injection Hm as -> ->.
    destruct (grid_set_spec gw gh g mx my PATH Hs Hmg)
      as (g1 & -> & Hs1 & Hg1).
    simpl.
    destruct (grid_set_spec gw gh g1 n.1 n.2 PATH Hs1)
      as (g2 & Hset & Hs2 & Hg2).
    { by apply logical_in_grid. }
    simpl in Hset. rewrite Hset. simpl.
    eexists. split; [done|].
    pose proof (trans_visit g g2 stk' c n vis k t Hadj Hr Hv Hs2) as Ht.
    unfold visit_events in Ht. rewrite Hmid in Ht. apply Ht.
    intros q. rewrite Hg2, Hg1. simpl.
    repeat case_decide; naive_solver.
Qed.
(** ** The invariant of the loop *)

Record inv (s : state) : Prop := {
  inv_shape : shaped gw gh (st_grid s);
  inv_logical : ∀ p, p ∈ st_visited s → logical w h p;
  inv_origin : (1, 1) ∈ st_visited s;
  inv_stack : ∀ p, p ∈ st_stack s → p ∈ st_visited s;
  inv_nodup : NoDup (st_stack s);
  inv_closed : ∀ p q,
    p ∈ st_visited s → p ∉ st_stack s → adjacent p q → logical w h q →
    q ∈ st_visited s;
  inv_vals : ∀ p c, grid_get (st_grid s) p = Some c → c = WALL ∨ c = PATH;
  inv_open : ∀ p, p ∈ st_visited s → grid_get (st_grid s) p = Some PATH;
  inv_cells : ∀ p,
    logical w h p → grid_get (st_grid s) p = Some PATH → p ∈ st_visited s;
  inv_walls : ∀ p,
    grid_get (st_grid s) p = Some PATH →
    logical w h p ∨
    ∃ a b, a ∈ st_visited s ∧ b ∈ st_visited s ∧ adjacent a b ∧
           p = mid a b
}.

Lemma inv_safe s : inv s → safe s.
Proof.
  intros Hi. split; [apply Hi|].
  intros p Hp. by apply Hi, Hi.
Qed.

(** The wall towards an unvisited cell still stands. *)
Lemma inv_wall_closed s c n :
  inv s → logical w h c → adjacent c n → n ∉ st_visited s →
  grid_get (st_grid s) (mid c n) ≠ Some PATH.
Proof.
  intros Hi Hc Hadj Hn Hp.
  destruct (inv_walls s Hi _ Hp) as [Hl|(a & b & Ha & Hb & Hab & Hm)].
  - by apply (logical_not_slot _ _ _ Hl), (mid_is_slot w h).
  - destruct (mid_inj w h c n a b Hc (inv_logical s Hi _ Ha) Hadj Hab Hm)
      as [[_ ->]|[_ ->]]; done.
Qed.

Lemma inv_unvisited_wall s n :
  inv s → logical w h n → n ∉ st_visited s →
  grid_get (st_grid s) n = Some WALL.
Proof.
  intros Hi Hl Hn.
  destruct (shaped_get_is_Some gw gh (st_grid s) n) as [c Hc];
    [apply Hi|by apply logical_in_grid|].
  destruct (inv_vals s Hi _ _ Hc) as [->| ->]; [done|].
  by apply (inv_cells s Hi) in Hc.
Qed.

Lemma trans_inv s s' : inv s → trans s s' → inv s'.
Proof.
  intros Hi Ht. destruct Ht as [g stk c vis k t Hall
                               |g g' stk c n vis k t Hadj Hn Hnv Hs' Hg'].
  - destruct Hi as [Hs Hl Ho Hst Hnd Hcl Hv Hop Hce Hwa]. simpl in *.
    apply NoDup_app in Hnd as (Hnd & Hdisj & _).
    split; simpl; try done.
    + intros p Hp. apply Hst, elem_of_snoc. by left.
    + intros p q Hp Hps Hpq Hq.
      destruct (decide (p = c)) as [->|Hne]; [by apply Hall|].
      apply (Hcl p q); try done.
      intros [?| ->]%elem_of_snoc; done.
  - pose proof Hi as [Hs Hl Ho Hst Hnd Hcl Hv Hop Hce Hwa]. simpl in *.
    assert (c ∈ vis) as Hc by (apply Hst, elem_of_snoc; by right).
    split; simpl; try done.
    + intros p [->|Hp]%elem_of_add; [done|by apply Hl].
    + apply elem_of_add. by right.
    + intros p [Hp| ->]%elem_of_snoc; apply elem_of_add;
        [right; by apply Hst|by left].
    + apply NoDup_app. split; [done|]. split; [|apply NoDup_singleton].
      intros p Hp ->%list_elem_of_singleton. by apply Hnv, Hst.
    + intros p q Hp Hps Hpq Hq. apply elem_of_add. right.
      apply elem_of_add in Hp as [->|Hp].
      * exfalso. apply Hps, elem_of_snoc. by right.
      * apply (Hcl p q); try done.
        intros Hin. apply Hps, elem_of_snoc. by left.
    + intros p v. rewrite Hg'. case_decide; [|apply Hv].
      intros [= <-]. by right.
    + intros p Hp. rewrite Hg'. case_decide; [done|].
      apply Hop. apply elem_of_add in Hp as [->|Hp]; [|done].
      exfalso. tauto.
    + intros p Hp. rewrite Hg'. case_decide as Hd.
      * intros _. destruct Hd as [->| ->]; [apply elem_of_add; by left|].
        exfalso. apply (logical_not_slot _ _ _ Hp).
        apply (mid_is_slot w h); [by apply Hl|done].
      * intros Hpp. apply elem_of_add. right. by apply Hce.
    + intros p. rewrite Hg'. case_decide as Hd.
      * intros _. destruct Hd as [->| ->]; [by left|].
        right. exists c, n. rewrite !elem_of_add. tauto.
      * intros Hpp. destruct (Hwa _ Hpp) as [?|(a & b & ? & ? & ? & ?)];
          [by left|]. right. exists a, b. rewrite !elem_of_add. tauto.
Qed.
(** ** The passages form a tree on the visited cells *)

Lemma linked_sym g a b : linked w h g a b → linked w h g b a.
Proof.
  intros (Ha & Hb & Hab & Hp). repeat split; try done.
  - by apply adjacent_sym.
  - by rewrite mid_sym.
Qed.

Lemma linked_visited s a b :
  inv s → linked w h (st_grid s) a b → a ∈ st_visited s ∧ b ∈ st_visited s.
Proof.
  intros Hi (Ha & Hb & Hab & Hp).
  destruct (inv_walls s Hi _ Hp) as [Hl|(a' & b' & Ha' & Hb' & Hab' & Hm)].
  - exfalso. by apply (logical_not_slot _ _ _ Hl), (mid_is_slot w h).
  - destruct (mid_inj w h a b a' b' Ha (inv_logical s Hi _ Ha') Hab Hab' Hm)
      as [[-> ->]|[-> ->]]; done.
Qed.

Lemma chain_mono g g' l :
  (∀ a b, a ∈ l → b ∈ l → linked w h g a b → linked w h g' a b) →
  chain w h g l → chain w h g' l.
Proof.
  induction l as [|a [|b l] IH]; simpl; intros Hm; try done.
  intros [Hab Hc]. split.
  - apply Hm; [by left|right; by left|done].
  - apply IH; [|done]. intros x y Hx Hy. apply Hm; by right.
Qed.

Lemma chain_lookup g l i a b :
  chain w h g l → l !! i = Some a → l !! S i = Some b → linked w h g a b.
Proof.
  revert i. induction l as [|x [|y l] IH]; intros i Hc Ha Hb.
  - done.
  - by destruct i.
  - destruct Hc as [Hxy Hc]. destruct i as [|i].
    + simpl in Ha, Hb. by injection Ha as ->; injection Hb as ->.
    + by apply (IH i).
Qed.

(** Every member of a cycle has two different neighbours in it. *)
Lemma cycle_two_neighbours g l n :
  cycle w h g l → n ∈ l →
  ∃ x y, x ≠ y ∧ linked w h g x n ∧ linked w h g n y.
Proof.
  intros (Hlen & Hnd & Hc & a & z & Ha & Hz & Hza)
    (i & Hi)%list_elem_of_lookup_1.
  rewrite head_lookup in Ha. rewrite last_lookup in Hz.
  pose proof (lookup_lt_Some _ _ _ Hi) as Hlt.
  assert (∀ j k x, l !! j = Some x → l !! k = Some x → j = k) as Hinj
    by (intros j k x; by apply NoDup_lookup).
  destruct i as [|i].
  - (* first member: predecessor is the last, successor the second *)
    assert (n = a) as -> by congruence.
    destruct (lookup_lt_is_Some_2 l 1%nat) as [y Hy]; [lia|].
    exists z, y. split; [|split; [done|by apply (chain_lookup g l 0%nat)]].
    intros ->. pose proof (Hinj _ _ _ Hz Hy). lia.
  - destruct (lookup_lt_is_Some_2 l i) as [x Hx]; [lia|].
    assert (linked w h g x n) as Hxn by (by apply (chain_lookup g l i)).
    destruct (decide (S (S i) = length l)) as [Hlast|Hnl].
    + (* last member: successor is the first *)
      assert (n = z) as ->.
      { replace (pred (length l)) with (S i) in Hz by lia. congruence. }
      exists x, a. split; [|done].
      intros ->. pose proof (Hinj _ _ _ Hx Ha). lia.
    + destruct (lookup_lt_is_Some_2 l (S (S i))) as [y Hy]; [lia|].
      exists x, y. split; [|split; [done|by apply (chain_lookup g l (S i))]].
      intros ->. pose proof (Hinj _ _ _ Hx Hy). lia.
Qed.

Record tree (s : state) : Prop := {
  tree_count : (passages gw gh (st_grid s) + 1)%nat = size (st_visited s);
  tree_conn : ∀ p,
    p ∈ st_visited s → rtc (linked w h (st_grid s)) (1, 1) p;
  tree_acyclic : ∀ l, ¬ cycle w h (st_grid s) l
}.

Section Visit.
#[local] Set Default Proof Using "All".
Variables (s : state) (c n : pos) (g' : grid_t).
Hypothesis Hi : inv s.
Hypothesis Hc : c ∈ st_visited s.
Hypothesis Hadj : adjacent c n.
Hypothesis Hn : logical w h n.
Hypothesis Hnv : n ∉ st_visited s.
Hypothesis Hg' : ∀ q, grid_get g' q =
  if decide (q = n ∨ q = mid c n) then Some PATH
  else grid_get (st_grid s) q.

Lemma visit_linked a b :
  linked w h g' a b ↔
  linked w h (st_grid s) a b ∨ (a = c ∧ b = n) ∨ (a = n ∧ b = c).
Proof.
  pose proof (inv_logical s Hi c Hc) as Hcl.
  unfold linked. rewrite Hg'. split.
  - intros (Ha & Hb & Hab & Hp). case_decide as Hd; [|by left].
    right. destruct Hd as [Hd|Hd].
    + exfalso. apply (logical_not_slot _ _ _ Hn). rewrite <-Hd.
      by apply (mid_is_slot w h).
    + destruct (mid_inj w h a b c n Ha Hcl Hab Hadj Hd); tauto.
  - intros [(Ha & Hb & Hab & Hp)|[[-> ->]|[-> ->]]].
    + repeat split; try done. by case_decide.
    + repeat split; try done. rewrite decide_True; [done|by right].
    + repeat split; try done; [by apply adjacent_sym|].
      rewrite decide_True; [done|right; apply mid_sym].
Qed.

Lemma visit_fresh_neighbour x :
  linked w h g' n x ∨ linked w h g' x n → x = c.
Proof.
  intros [Hl|Hl]; apply visit_linked in Hl as [Hl|[[? ?]|[? ?]]];
    try done; try (by subst; destruct (adjacent_ne _ _ Hadj));
    apply (linked_visited s _ _ Hi) in Hl as [? ?]; done.
Qed.

Lemma visit_passages :
  passages gw gh g' = S (passages gw gh (st_grid s)).
Proof.
  pose proof (inv_logical s Hi c Hc) as Hcl.
  unfold passages.
  apply (length_filter_flip _ _ _ (mid c n)).
  - apply NoDup_positions.
  - apply elem_of_positions. by apply mid_in_grid.
  - intros [_ Hp]. by apply (inv_wall_closed s c n Hi Hcl Hadj Hnv).
  - split; [by apply (mid_is_slot w h)|].
    rewrite Hg'. rewrite decide_True; [done|by right].
  - intros q Hq. unfold carved. rewrite Hg'. case_decide as Hd; [|done].
    destruct Hd as [->|?]; [|done].
    split; intros [Hs _]; exfalso; by apply (logical_not_slot _ _ _ Hn).
Qed.

Lemma visit_acyclic :
  (∀ l, ¬ cycle w h (st_grid s) l) → ∀ l, ¬ cycle w h g' l.
Proof.
  intros Hac l Hcy. destruct (decide (n ∈ l)) as [Hin|Hnin].
  - destruct (cycle_two_neighbours g' l n Hcy Hin)
      as (x & y & Hxy & Hx & Hy).
    apply Hxy. rewrite (visit_fresh_neighbour x), (visit_fresh_neighbour y);
      auto.
  - apply (Hac l).
    destruct Hcy as (Hlen & Hnd & Hch & a & z & Ha & Hz & Hza).
    assert (∀ a b, a ∈ l → b ∈ l →
                   linked w h g' a b → linked w h (st_grid s) a b) as Hold.
    { intros a' b' Ha' Hb' [Hl|[[_ ->]|[-> _]]]%visit_linked; done. }
    split; [done|]. split; [done|]. split; [by apply (chain_mono g')|].
    exists a, z. split; [done|]. split; [done|]. apply Hold; [| |done].
    + eapply list_elem_of_lookup_2. by rewrite <-last_lookup.
    + eapply list_elem_of_lookup_2. by rewrite <-head_lookup.
Qed.

Lemma visit_connected :
  (∀ p, p ∈ st_visited s → rtc (linked w h (st_grid s)) (1, 1) p) →
  ∀ p, p ∈ {[n]} ∪ st_visited s → rtc (linked w h g') (1, 1) p.
Proof.
  intros Hco.
  assert (∀ p, p ∈ st_visited s → rtc (linked w h g') (1, 1) p) as Hold.
  { intros p Hp. eapply rtc_subrel; [|by apply Hco].
    intros a b Hab. apply visit_linked. by left. }
  intros p [->|Hp]%elem_of_add; [|by apply Hold].
  eapply rtc_r; [by apply Hold|]. apply visit_linked. right. by left.
Qed.
End Visit.

Lemma trans_tree s s' : inv s → tree s → trans s s' → tree s'.
Proof.
  intros Hi [Hcount Hconn Hacyc] Ht.
  destruct Ht as [g stk c vis k t Hall
                 |g g' stk c n vis k t Hadj Hn Hnv Hs' Hg']; [done|].
  simpl in *.
  assert (c ∈ vis) as Hc.
  { apply (inv_stack _ Hi). simpl. apply elem_of_snoc. by right. }
  set (s0 := Build_state g (stk ++ [c]) vis k t) in *.
  split; simpl.
  - rewrite (visit_passages s0 c n g') by done. simpl.
    rewrite size_union by (by apply disjoint_singleton_l).
    rewrite size_singleton. simpl in Hcount. lia.
  - by apply (visit_connected s0 c n g').
  - by apply (visit_acyclic s0 c n g').
Qed.
(** ** Bookkeeping of the run *)

Lemma visit_events_appends c n g' x :
  length (filter (is_append_of x) (visit_events c n g')) =
  if decide (x = n) then 1%nat else 0%nat.
Proof.
  unfold visit_events. destruct animate; simpl; rewrite !count_cons; simpl;
    case_bool_decide; case_decide; simpl; congruence.
Qed.

Lemma visit_events_pops c n g' x :
  length (filter (is_pop_of x) (visit_events c n g')) = 0%nat.
Proof.
  unfold visit_events. by destruct animate; simpl; rewrite ?count_cons.
Qed.

Lemma visit_events_visits c n g' :
  visit_steps (visit_events c n g') = 1%nat.
Proof.
  unfold visit_steps, visit_events.
  by destruct animate; simpl; rewrite ?count_cons.
Qed.

Lemma visit_events_backtracks c n g' :
  backtrack_steps (visit_events c n g') = 0%nat.
Proof.
  unfold backtrack_steps, visit_events.
  by destruct animate; simpl; rewrite ?count_cons.
Qed.

Lemma visit_events_emissions c n g' :
  emissions (visit_events c n g') = if animate then 1%nat else 0%nat.
Proof.
  unfold emissions, visit_events.
  by destruct animate; simpl; rewrite ?count_cons.
Qed.

Record book (s : state) : Prop := {
  book_push : ∀ c,
    pushes c (st_trace s) = if decide (c ∈ st_visited s) then 1%nat else 0%nat;
  book_pop : ∀ c,
    pops c (st_trace s) =
    if decide (c ∈ st_visited s ∧ c ∉ st_stack s) then 1%nat else 0%nat;
  book_draws : S (st_draws s) = size (st_visited s);
  book_visits : S (visit_steps (st_trace s)) = size (st_visited s);
  book_backtracks :
    (backtrack_steps (st_trace s) + length (st_stack s))%nat =
    size (st_visited s);
  book_emissions :
    emissions (st_trace s) =
    if animate then visit_steps (st_trace s) else 0%nat;
  book_writes : ∀ x y v,
    Write x y v ∈ st_trace s →
    v = PATH ∧ in_grid gw gh (x, y) ∧ ¬ post (x, y)
}.

Lemma trans_book s s' : inv s → book s → trans s s' → book s'.
Proof.
  intros Hi [Hpu Hpo Hdr Hvi Hba Hem Hwr] Ht.
  destruct Ht as [g stk c vis k t Hall
                 |g g' stk c n vis k t Hadj Hn Hnv Hs' Hg'];
    simpl in *.
  - pose proof (inv_nodup _ Hi) as Hnd. simpl in Hnd.
    apply NoDup_app in Hnd as (_ & Hdisj & _).
    assert (c ∈ vis) as Hc.
    { apply (inv_stack _ Hi). simpl. apply elem_of_snoc. by right. }
    split; simpl; try done.
    + intros x. unfold pushes in *. rewrite count_app, count_cons. simpl.
      rewrite <-Hpu. lia.
    + intros x. unfold pops in *. rewrite count_app, count_cons, Hpo. simpl.
      destruct (decide (x = c)) as [->|Hne].
      * rewrite bool_decide_true by done.
        rewrite decide_False, decide_True; [done| |].
        -- split; [done|]. intros Hin. apply (Hdisj c Hin). by left.
        -- intros [_ Hnin]. apply Hnin, elem_of_snoc. by right.
      * rewrite bool_decide_false by done.
        assert (x ∈ vis ∧ x ∉ stk ++ [c] ↔ x ∈ vis ∧ x ∉ stk) as Hiff.
        { rewrite elem_of_snoc. tauto. }
        rewrite (decide_ext _ _ _ _ Hiff). simpl. lia.
    + unfold visit_steps in *. rewrite count_app, count_cons. simpl. lia.
    + unfold backtrack_steps in *. rewrite count_app, count_cons. simpl.
      rewrite length_app in Hba. simpl in Hba. lia.
    + unfold emissions, visit_steps in *.
      rewrite !count_app, !count_cons, Hem. simpl. destruct animate; lia.
    + intros x y v [Hin|Hin]%elem_of_app; [by apply Hwr|].
      by apply list_elem_of_singleton in Hin.
  - assert (c ∈ vis) as Hc.
    { apply (inv_stack _ Hi). simpl. apply elem_of_snoc. by right. }
    pose proof (inv_logical _ Hi c Hc) as Hcl. simpl in Hcl.
    assert (size ({[n]} ∪ vis) = S (size vis)) as Hsz.
    { rewrite size_union by (by apply disjoint_singleton_l).
      by rewrite size_singleton. }
    split; simpl; rewrite ?Hsz; try lia.
    + intros x. unfold pushes in *.
      rewrite count_app, visit_events_appends.
      specialize (Hpu x). rewrite (decide_ext _ _ _ _ (elem_of_add n x vis)).
      destruct (decide (x = n)) as [->|Hne].
      * rewrite (decide_True (P := n = n ∨ n ∈ vis)) by (by left).
        rewrite (decide_False (P := n ∈ vis)) in Hpu by done. lia.
      * destruct (decide (x ∈ vis)) as [Hx|Hx].
        -- rewrite (decide_True (P := x = n ∨ x ∈ vis)) by (by right). lia.
        -- rewrite (decide_False (P := x = n ∨ x ∈ vis)) by tauto. lia.
    + intros x. unfold pops in *.
      rewrite count_app, visit_events_pops, Hpo, Nat.add_0_r.
      apply decide_ext. rewrite elem_of_add, !elem_of_snoc. split.
      * intros [Hx Hnin]. split; [by right|].
        intros [[?|?]| ->]; [tauto|tauto|done].
      * intros [[->|Hx] Hnin]; [tauto|]. split; [done|]. tauto.
    + unfold visit_steps in *. rewrite count_app.
      fold (visit_steps (visit_events c n g')).
      rewrite visit_events_visits. lia.
    + unfold backtrack_steps in *. rewrite count_app.
      fold (backtrack_steps (visit_events c n g')).
      rewrite visit_events_backtracks, !length_app. simpl.
      rewrite length_app in Hba. simpl in Hba. lia.
    + unfold emissions, visit_steps in *. rewrite !count_app.
      fold (emissions (visit_events c n g')).
      fold (visit_steps (visit_events c n g')).
      rewrite visit_events_emissions, visit_events_visits, Hem.
      destruct animate; lia.
    + intros x y v [Hin|Hin]%elem_of_app; [by apply Hwr|].
      unfold visit_events in Hin.
      assert (Write x y v = Write (mid c n).1 (mid c n).2 PATH ∨
              Write x y v = Write n.1 n.2 PATH) as [[= -> -> ->]|[= -> -> ->]].
      { destruct animate; simpl in Hin;
          repeat (apply elem_of_cons in Hin as [Hin|Hin]; [try done; auto|]);
          by apply elem_of_nil in Hin. }
      * split; [done|].
        split; [exact (mid_in_grid _ _ Hcl Hadj)|].
        exact (slot_not_post _ (mid_is_slot w h _ _ Hcl Hadj)).
      * split; [done|]. destruct n as [nx ny].
        split; [by apply logical_in_grid|by apply (logical_not_post w h)].
Qed.
(** ** Entering the loop *)

Definition good (s : state) : Prop := inv s ∧ tree s ∧ book s.

Section Entry.
#[local] Set Default Proof Using "All".
Variable g0 : grid_t.
Hypothesis Hs : shaped gw gh g0.
Hypothesis Hg : ∀ q,
  grid_get g0 q = if decide (q = (1, 1)) then Some PATH
                  else grid_get (grid (__init__ w h)) q.

Lemma entry_path p : grid_get g0 p = Some PATH → p = (1, 1).
Proof. rewrite Hg. case_decide; [done|]. by intros ?%init_get. Qed.

Lemma entry_unlinked a b : ¬ linked w h g0 a b.
Proof.
  intros (Ha & _ & Hab & Hp%entry_path).
  apply (logical_not_slot w h (1, 1) origin_logical).
  rewrite <-Hp. by apply (mid_is_slot w h).
Qed.

Lemma entry_inv : inv (entry g0).
Proof.
  split; unfold entry; cbn [st_grid st_stack st_visited st_draws st_trace].
  - done.
  - intros p ->%elem_of_singleton. apply origin_logical.
  - by apply elem_of_singleton.
  - intros p ->%list_elem_of_singleton. by apply elem_of_singleton.
  - apply NoDup_singleton.
  - intros p q ->%elem_of_singleton Hn. exfalso. apply Hn. by left.
  - intros p c. rewrite Hg. case_decide; [intros [= <-]; by right|].
    intros ->%init_get. by left.
  - intros p ->%elem_of_singleton. rewrite Hg. by rewrite decide_True.
  - intros p _ ->%entry_path. by apply elem_of_singleton.
  - intros p ->%entry_path. left. apply origin_logical.
Qed.

Lemma entry_tree : tree (entry g0).
Proof.
  split; unfold entry; cbn [st_grid st_stack st_visited st_draws st_trace].
  - rewrite size_singleton. unfold passages.
    rewrite length_filter_none; [done|].
    intros q _ [Hq ->%entry_path].
    by apply (logical_not_slot w h _ origin_logical).
  - by intros p ->%elem_of_singleton.
  - intros l (Hlen & _ & Hch & _).
    destruct l as [|a [|b l]]; simpl in *; try lia.
    destruct Hch as [Hab _]. by apply (entry_unlinked a b).
Qed.

Lemma entry_book : book (entry g0).
Proof.
  split; unfold entry; cbn [st_grid st_stack st_visited st_draws st_trace].
  - intros c. unfold pushes. rewrite count_cons. simpl.
    rewrite (decide_ext _ _ _ _ (elem_of_singleton c (1, 1))). lia.
  - intros c. unfold pops. rewrite count_cons. simpl.
    rewrite decide_False; [done|].
    intros [->%elem_of_singleton Hn]. apply Hn. by left.
  - by rewrite size_singleton.
  - by rewrite size_singleton.
  - by rewrite size_singleton.
  - by destruct animate.
  - intros x y v [= -> -> ->]%list_elem_of_singleton.
    split; [done|]. split; [apply (logical_in_grid _ origin_logical)|].
    apply (logical_not_post w h _ origin_logical).
Qed.

Lemma entry_good : good (entry g0).
Proof. split; [apply entry_inv|split; [apply entry_tree|apply entry_book]]. Qed.
End Entry.

Lemma trans_good s s' : good s → trans s s' → good s'.
Proof.
  intros (Hi & Ht & Hb) Hs. split; [|split].
  - by apply (trans_inv s).
  - by apply (trans_tree s).
  - by apply (trans_book s).
Qed.

(** ** Termination *)

Lemma logical_set_bound (X : gset pos) :
  (∀ p, p ∈ X → logical w h p) → (size X ≤ Z.to_nat (w * h))%nat.
Proof.
  intros HX. rewrite <-(length_cells w h) by lia.
  rewrite <-(size_list_to_set (C := gset pos) (cells w h))
    by apply NoDup_cells.
  apply subseteq_size. intros p Hp.
  apply elem_of_list_to_set, elem_of_cells. by apply HX.
Qed.

Lemma visited_bound s :
  inv s → (size (st_visited s) ≤ Z.to_nat (w * h))%nat.
Proof. intros Hi. apply logical_set_bound, Hi. Qed.

(** While a cell is unvisited, fewer than [w·h - 1] draws were made. *)
Lemma unvisited_draws s n :
  good s → logical w h n → n ∉ st_visited s →
  (st_draws s < Z.to_nat (w * h) - 1)%nat.
Proof.
  intros (Hi & _ & Hb) Hn Hnv.
  pose proof (logical_set_bound ({[n]} ∪ st_visited s)) as Hbound.
  rewrite size_union, size_singleton in Hbound
    by (by apply disjoint_singleton_l).
  pose proof (book_draws s Hb).
  assert (1 + size (st_visited s) ≤ Z.to_nat (w * h))%nat; [|lia].
  apply Hbound. intros p [->|Hp]%elem_of_add; [done|by apply Hi].
Qed.

(** Twice the number of cells to visit, plus the cells to pop. *)
Definition measure (s : state) : nat :=
  (2 * (Z.to_nat (w * h) - size (st_visited s)) + length (st_stack s))%nat.

Lemma trans_measure s s' :
  inv s → trans s s' → S (measure s') = measure s.
Proof.
  intros Hi Ht. pose proof (trans_inv s s' Hi Ht) as Hi'.
  pose proof (visited_bound s' Hi') as Hb.
  destruct Ht as [g stk c vis k t Hall
                 |g g' stk c n vis k t Hadj Hn Hnv Hs' Hg'];
    unfold measure in *; simpl in *.
  - rewrite length_app. simpl. lia.
  - rewrite size_union in * by (by apply disjoint_singleton_l).
    rewrite size_singleton in *. rewrite !length_app. simpl. lia.
Qed.

Lemma loop_good rnd fuel s :
  good s → (measure s ≤ fuel)%nat →
  ∃ s', loop gw gh animate rnd fuel s = Done s' ∧ good s' ∧
        st_stack s' = [].
Proof.
  revert s. induction fuel as [|fuel IH]; intros s Hg Hm.
  - exists s. unfold measure in Hm.
    destruct (st_stack s) as [|p stk] eqn:Hst; simpl in Hm; [|lia].
    simpl. by rewrite Hst.
  - destruct (st_stack s) as [|p stk] eqn:Hst.
    { exists s. simpl. by rewrite Hst. }
    destruct (loop_body_trans rnd s) as (s1 & Hbody & Ht).
    { apply inv_safe, Hg. }
    { by rewrite Hst. }
    pose proof (trans_measure s s1 (proj1 Hg) Ht) as Hdec.
    destruct (IH s1) as (s' & Hloop & Hg' & Hst'); [by eapply trans_good|lia|].
    exists s'. simpl. rewrite Hst, Hbody. simpl. done.
Qed.

(** ** Coverage *)

Lemma all_visited s p :
  inv s → st_stack s = [] → logical w h p → p ∈ st_visited s.
Proof.
  intros Hi Hst (cx & cy & Hx & Hy & ->).
  assert (∀ a b, a ∈ st_visited s → adjacent a b → logical w h b →
                 b ∈ st_visited s) as Hstep.
  { intros a b Ha Hab Hb. apply (inv_closed s Hi a b); try done.
    rewrite Hst. apply not_elem_of_nil. }
  assert (∀ j : nat, Z.of_nat j < h →
                     (1, 2 * Z.of_nat j + 1) ∈ st_visited s) as Hcol.
  { induction j as [|j IHj]; intros Hj; [apply Hi|].
    apply (Hstep (1, 2 * Z.of_nat j + 1)); [apply IHj; lia| |].
    - apply adjacent_cases. right. left. simpl. f_equal. lia.
    - exists 0, (Z.of_nat (S j)). split; [lia|]. split; [lia|done]. }
  assert (∀ i j : nat, Z.of_nat i < w → Z.of_nat j < h →
            (2 * Z.of_nat i + 1, 2 * Z.of_nat j + 1) ∈ st_visited s)
    as Hall.
  { induction i as [|i IHi]; intros j Hi' Hj; [by apply Hcol|].
    apply (Hstep (2 * Z.of_nat i + 1, 2 * Z.of_nat j + 1));
      [apply IHi; lia| |].
    - apply adjacent_cases. right. right. right. simpl. f_equal. lia.
    - exists (Z.of_nat (S i)), (Z.of_nat j).
      split; [lia|]. split; [lia|done]. }
  specialize (Hall (Z.to_nat cx) (Z.to_nat cy)).
  rewrite !Z2Nat.id in Hall by lia. apply Hall; lia.
Qed.

Lemma all_visited_size s :
  inv s → st_stack s = [] → size (st_visited s) = Z.to_nat (w * h).
Proof.
  intros Hi Hst. rewrite <-(length_cells w h) by lia.
  rewrite <-(size_list_to_set (C := gset pos) (cells w h))
    by apply NoDup_cells.
  f_equal. apply set_eq. intros p.
  rewrite elem_of_list_to_set, elem_of_cells. split.
  - apply Hi.
  - by apply all_visited.
Qed.
(** ** The states of a run *)

(** The states the loop of [generate] passes through on a [w × h] maze. *)
Inductive reachable (rnd : nat → nat) : state → Prop :=
  | reach_entry g0 :
      grid_set (grid (__init__ w h)) 1 1 PATH = Done g0 →
      reachable rnd (entry g0)
  | reach_step s s' :
      reachable rnd s → st_stack s ≠ [] →
      loop_body gw gh animate rnd s = Done s' →
      reachable rnd s'.

Lemma entry_set :
  ∃ g0, grid_set (grid (__init__ w h)) 1 1 PATH = Done g0 ∧
        good (entry g0).
Proof.
  destruct (grid_set_spec gw gh (grid (__init__ w h)) 1 1 PATH)
    as (g0 & Hset & Hs & Hg); [apply init_shaped|split; simpl; lia|].
  exists g0. split; [done|]. by apply entry_good.
Qed.

Lemma reachable_good rnd s : reachable rnd s → good s.
Proof.
  induction 1 as [g0 Hset|s s' Hr IH Hne Hbody].
  - destruct entry_set as (g0' & Hset' & Hg). congruence.
  - destruct (loop_body_trans rnd s) as (s1 & Hbody1 & Ht);
      [apply inv_safe, IH|done|].
    assert (s' = s1) as -> by congruence. by apply (trans_good s).
Qed.

Lemma loop_reachable rnd fuel s s' :
  reachable rnd s → loop gw gh animate rnd fuel s = Done s' →
  reachable rnd s' ∧ st_stack s' = [].
Proof.
  revert s. induction fuel as [|fuel IH]; intros s Hr; simpl.
  - destruct (st_stack s) eqn:Hst; [|done]. by intros [= <-].
  - destruct (st_stack s) eqn:Hst; [by intros [= <-]|].
    destruct (loop_body gw gh animate rnd s) as [s1| |] eqn:Hbody;
      simpl; try done.
    apply IH. apply (reach_step rnd s); [done| |done]. by rewrite Hst.
Qed.

Lemma loop_never_raises rnd fuel s e :
  good s → loop gw gh animate rnd fuel s ≠ Raise e.
Proof.
  revert s. induction fuel as [|fuel IH]; intros s Hg; simpl.
  - by destruct (st_stack s).
  - destruct (st_stack s) eqn:Hst; [done|].
    destruct (loop_body_trans rnd s) as (s1 & -> & Ht);
      [apply inv_safe, Hg|by rewrite Hst|].
    simpl. apply IH. by apply (trans_good s).
Qed.

(** ** Marking the endpoints *)

Lemma end_logical : logical w h (gw - 2, gh - 2).
Proof. exists (w - 1), (h - 1). split; [lia|]. split; [lia|]. f_equal; lia. Qed.

(** The grid [g2] is [g] with Start written at [(1, 1)] and then End at
    the opposite corner. *)
Definition marked (g g2 : grid_t) : Prop :=
  shaped gw gh g2 ∧
  ∀ q, grid_get g2 q =
       if decide (q = (gw - 2, gh - 2)) then Some END
       else if decide (q = (1, 1)) then Some START
       else grid_get g q.

Lemma mark_endpoints g :
  shaped gw gh g →
  ∃ g1 g2, grid_set g 1 1 START = Done g1 ∧
           grid_set g1 (gw - 2) (gh - 2) END = Done g2 ∧ marked g g2.
Proof.
  intros Hs.
  destruct (grid_set_spec gw gh g 1 1 START Hs) as (g1 & Hset1 & Hs1 & Hg1);
    [apply (logical_in_grid _ origin_logical)|].
  destruct (grid_set_spec gw gh g1 (gw - 2) (gh - 2) END Hs1)
    as (g2 & Hset2 & Hs2 & Hg2); [apply (logical_in_grid _ end_logical)|].
  exists g1, g2. split; [done|]. split; [done|]. split; [done|].
  intros q. by rewrite Hg2, Hg1.
Qed.

Lemma marked_slot g g2 q :
  marked g g2 → is_slot q → grid_get g2 q = grid_get g q.
Proof.
  intros [_ Hm] Hq. rewrite Hm.
  rewrite decide_False
    by (intros ->; by apply (logical_not_slot w h _ end_logical)).
  by rewrite decide_False
    by (intros ->; by apply (logical_not_slot w h _ origin_logical)).
Qed.

Lemma marked_linked g g2 a b :
  marked g g2 → linked w h g2 a b ↔ linked w h g a b.
Proof.
  intros Hm. unfold linked. split; intros (Ha & Hb & Hab & Hp);
    repeat split; try done.
  - by rewrite <-(marked_slot g g2) by (by try apply (mid_is_slot w h)).
  - by rewrite (marked_slot g g2) by (by try apply (mid_is_slot w h)).
Qed.

Lemma marked_passages g g2 :
  marked g g2 → passages gw gh g2 = passages gw gh g.
Proof.
  intros Hm. apply length_filter_same. intros q _. unfold carved.
  split; intros [Hq Hp]; (split; [done|]).
  - by rewrite <-(marked_slot g g2).
  - by rewrite (marked_slot g g2).
Qed.

Lemma marked_cycle g g2 l : marked g g2 → cycle w h g2 l → cycle w h g l.
Proof.
  intros Hm (Hlen & Hnd & Hch & a & z & Ha & Hz & Hza).
  split; [done|]. split; [done|]. split.
  - apply (chain_mono g2); [|done]. intros x y _ _.
    apply (proj1 (marked_linked g g2 x y Hm)).
  - exists a, z. split; [done|]. split; [done|].
    by apply (proj1 (marked_linked g g2 z a Hm)).
Qed.

(** What [generate] returns, in terms of the last state of its loop. *)
Lemma generate_inv rnd fuel m t :
  generate fuel rnd (__init__ w h) animate = Done (m, t) →
  ∃ s, reachable rnd s ∧ st_stack s = [] ∧
       t = st_trace s ++ [Write 1 1 START; Write (gw - 2) (gh - 2) END] ∧
       m = {| width := w; height := h; grid_w := gw; grid_h := gh;
              grid := grid m; start := (1, 1);
              end_ := (gw - 2, gh - 2) |} ∧
       marked (st_grid s) (grid m).
Proof.
  unfold generate. destruct entry_set as (g0 & Hset & Hg0). rewrite Hset.
  simpl.
  destruct (loop gw gh animate rnd fuel (entry g0)) as [s| |] eqn:Hloop;
    simpl; try done.
  destruct (loop_reachable rnd fuel _ s (reach_entry rnd g0 Hset) Hloop)
    as [Hr Hst].
  pose proof (reachable_good rnd s Hr) as Hg.
  destruct (mark_endpoints (st_grid s)) as (g1 & g2 & -> & Hs2 & Hm);
    [apply Hg|].
  simpl. rewrite Hs2. simpl. intros [= <- <-]. by exists s.
Qed.

Lemma generate_total rnd fuel :
  (2 * Z.to_nat (w * h) - 1 ≤ fuel)%nat →
  ∃ m t, generate fuel rnd (__init__ w h) animate = Done (m, t).
Proof.
  intros Hfuel. unfold generate.
  destruct entry_set as (g0 & -> & Hg0). simpl.
  destruct (loop_good rnd fuel (entry g0) Hg0) as (s & -> & Hg & Hst).
  { unfold measure, entry. cbn [st_visited st_stack].
    rewrite size_singleton. simpl. lia. }
  simpl.
  destruct (mark_endpoints (st_grid s)) as (g1 & g2 & -> & Hs2 & Hm);
    [apply Hg|].
  simpl. rewrite Hs2. simpl. by eexists _, _.
Qed.

Lemma generate_never_raises rnd fuel e :
  generate fuel rnd (__init__ w h) animate ≠ Raise e.
Proof.
  unfold generate. destruct entry_set as (g0 & Hset & Hg0). rewrite Hset.
  simpl.
  destruct (loop gw gh animate rnd fuel (entry g0)) as [s| |] eqn:Hloop;
    simpl; try done.
  - destruct (loop_reachable rnd fuel _ s (reach_entry rnd g0 Hset) Hloop)
      as [Hr Hst].
    pose proof (reachable_good rnd s Hr) as Hg.
    destruct (mark_endpoints (st_grid s)) as (g1 & g2 & -> & Hs2 & Hm);
      [apply Hg|].
    simpl. by rewrite Hs2.
  - by apply loop_never_raises in Hloop.
Qed.
(** ** The two kinds of step, read off the code *)

Lemma loop_body_backtrack rnd s s' :
  candidates gw gh s = [] → loop_body gw gh animate rnd s = Done s' →
  st_grid s' = st_grid s ∧ st_visited s' = st_visited s ∧
  st_stack s' = removelast (st_stack s).
Proof.
  unfold candidates, loop_body.
  destruct (last (st_stack s)) as [[x y]|]; [|done].
  intros ->. by intros [= <-].
Qed.

Lemma loop_body_visit rnd s s' :
  candidates gw gh s ≠ [] → loop_body gw gh animate rnd s = Done s' →
  ∃ n, st_stack s' = st_stack s ++ [n].
Proof.
  unfold candidates, loop_body.
  destruct (last (st_stack s)) as [[x y]|]; [|done].
  destruct (neighbors gw gh (st_visited s) x y) as [|e0 ns]; [done|].
  intros _. destruct (choice rnd _ _ _) as [[[nx ny] wx] wy].
  destruct (grid_set (st_grid s) _ _ _) as [g1| |]; simpl; try done.
  destruct (grid_set g1 _ _ _) as [g2| |]; simpl; try done.
  intros [= <-]. by eexists.
Qed.

(** A visit step opens exactly the chosen cell and the wall towards
    it, both standing so far; a backtrack step leaves the grid alone. *)
Lemma loop_body_frame rnd s s' :
  good s → st_stack s ≠ [] → loop_body gw gh animate rnd s = Done s' →
  (candidates gw gh s = [] → st_grid s' = st_grid s) ∧
  (candidates gw gh s ≠ [] →
   ∃ c n, last (st_stack s) = Some c ∧ last (st_stack s') = Some n ∧
          adjacent c n ∧ n ≠ mid c n ∧
          grid_get (st_grid s) n = Some WALL ∧
          grid_get (st_grid s) (mid c n) = Some WALL ∧
          grid_get (st_grid s') n = Some PATH ∧
          grid_get (st_grid s') (mid c n) = Some PATH ∧
          ∀ q, q ≠ n → q ≠ mid c n →
               grid_get (st_grid s') q = grid_get (st_grid s) q).
Proof.
  intros (Hi & _ & _) Hne Hbody. split.
  - intros Hc. by destruct (loop_body_backtrack rnd s s' Hc Hbody).
  - intros Hc. destruct (loop_body_visit rnd s s' Hc Hbody) as (n' & Hst).
    destruct (loop_body_trans rnd s (inv_safe s Hi) Hne) as (s1 & Hb1 & Ht).
    assert (s1 = s') as -> by congruence.
    destruct Ht as [g stk c vis k t Hall
                   |g g' stk c n vis k t Hadj Hn Hnv Hs' Hg'];
      simpl in *.
    { exfalso. apply (f_equal length) in Hst.
      rewrite !length_app in Hst. simpl in Hst. lia. }
    pose proof (inv_logical _ Hi c) as Hcl. simpl in Hcl.
    assert (logical w h c) as Hcl'.
    { apply Hcl, (inv_stack _ Hi). simpl. apply elem_of_snoc. by right. }
    assert (n ≠ mid c n) as Hnm.
    { intros Heq. apply (logical_not_slot _ _ _ Hn). rewrite Heq.
      by apply (mid_is_slot w h). }
    exists c, n. rewrite !last_snoc.
    split; [done|]. split; [done|]. split; [done|]. split; [done|].
    split; [by apply (inv_unvisited_wall _ n Hi)|]. split.
    { destruct (shaped_get_is_Some gw gh g (mid c n)) as [v Hv];
        [apply Hi|by apply mid_in_grid|].
      destruct (inv_vals _ Hi _ _ Hv) as [->| ->]; [done|].
      by destruct (inv_wall_closed _ c n Hi Hcl' Hadj Hnv). }
    split; [rewrite Hg'; by rewrite decide_True by (by left)|].
    split; [rewrite Hg'; by rewrite decide_True by (by right)|].
    intros q Hq1 Hq2. rewrite Hg'. by rewrite decide_False by tauto.
Qed.

(** No step closes a passage. *)
Lemma loop_body_monotone rnd s s' q :
  good s → st_stack s ≠ [] → loop_body gw gh animate rnd s = Done s' →
  grid_get (st_grid s) q = Some PATH → grid_get (st_grid s') q = Some PATH.
Proof.
  intros (Hi & _ & _) Hne Hbody Hq.
  destruct (loop_body_trans rnd s (inv_safe s Hi) Hne) as (s1 & Hb1 & Ht).
  assert (s1 = s') as -> by congruence.
  destruct Ht as [g stk c vis k t Hall
                 |g g' stk c n vis k t Hadj Hn Hnv Hs' Hg'];
    simpl in *; [done|].
  rewrite Hg'. by case_decide.
Qed.

(** ** The run depends on the draws actually made only *)

Lemma loop_body_ext rnd1 rnd2 s :
  good s →
  (∀ k, (k < Z.to_nat (w * h) - 1)%nat → rnd1 k = rnd2 k) →
  loop_body gw gh animate rnd1 s = loop_body gw gh animate rnd2 s.
Proof.
  intros Hg Hagree. unfold loop_body.
  destruct (last (st_stack s)) as [[x y]|] eqn:Hlast; [|done].
  destruct (neighbors gw gh (st_visited s) x y) as [|e0 ns] eqn:Hnb; [done|].
  assert (e0 ∈ neighbors gw gh (st_visited s) x y) as He
    by (rewrite Hnb; by left).
  apply elem_of_neighbors in He as (d & Hd & Hr & Hv & _).
  assert (logical w h (x, y)) as Hc.
  { apply Hg, Hg. apply last_Some in Hlast as (l' & ->).
    apply elem_of_snoc. by right. }
  apply (in_range_logical x y d Hc Hd) in Hr.
  pose proof (unvisited_draws s _ Hg Hr Hv) as Hk.
  unfold choice. by rewrite (Hagree _ Hk).
Qed.

Lemma loop_ext rnd1 rnd2 fuel s :
  good s →
  (∀ k, (k < Z.to_nat (w * h) - 1)%nat → rnd1 k = rnd2 k) →
  loop gw gh animate rnd1 fuel s = loop gw gh animate rnd2 fuel s.
Proof.
  intros Hg Hagree. revert s Hg.
  induction fuel as [|fuel IH]; intros s Hg; simpl; [done|].
  destruct (st_stack s) eqn:Hst; [done|].
  rewrite <-(loop_body_ext rnd1 rnd2 s Hg Hagree).
  destruct (loop_body_trans rnd1 s) as (s1 & -> & Ht);
    [apply inv_safe, Hg|by rewrite Hst|].
  simpl. apply IH. by apply (trans_good s).
Qed.

Lemma generate_ext rnd1 rnd2 fuel :
  (∀ k, (k < Z.to_nat (w * h) - 1)%nat → rnd1 k = rnd2 k) →
  generate fuel rnd1 (__init__ w h) animate =
  generate fuel rnd2 (__init__ w h) animate.
Proof.
  intros Hagree. unfold generate.
  destruct entry_set as (g0 & -> & Hg0). simpl.
  by rewrite (loop_ext rnd1 rnd2 fuel (entry g0) Hg0 Hagree).
Qed.
End Carving.

(** * The properties of a generated maze *)

Lemma rtc_symmetric {A} (R : relation A) x y :
  (∀ a b, R a b → R b a) → rtc R x y → rtc R y x.
Proof.
  intros Hsym. induction 1 as [|x y z Hxy _ IH]; [done|].
  eapply rtc_r; [exact IH|by apply Hsym].
Qed.

(** With fuel for [2·w·h - 1] iterations the loop runs to its end; the
    result of [generate] in terms of the last state of the loop. *)
Lemma generate_run w h animate rnd fuel :
  1 ≤ w → 1 ≤ h → (2 * Z.to_nat (w * h) - 1 ≤ fuel)%nat →
  ∃ g0 s m t,
    grid_set (grid (__init__ w h)) 1 1 PATH = Done g0 ∧
    loop (w * 2 + 1) (h * 2 + 1) animate rnd fuel (entry g0) = Done s ∧
    generate fuel rnd (__init__ w h) animate = Done (m, t) ∧
    reachable w h animate rnd s ∧ st_stack s = [] ∧
    t = st_trace s ++
          [Write 1 1 START; Write (w * 2 + 1 - 2) (h * 2 + 1 - 2) END] ∧
    grid_w m = w * 2 + 1 ∧ grid_h m = h * 2 + 1 ∧
    marked w h (st_grid s) (grid m).
Proof.
  intros Hw Hh Hfuel.
  destruct (entry_set w h Hw Hh animate) as (g0 & Hset & Hg0).
  destruct (loop_good w h Hw Hh animate rnd fuel (entry g0) Hg0)
    as (s & Hloop & Hg & Hst).
  { unfold measure, entry. cbn [st_visited st_stack].
    rewrite size_singleton. simpl. lia. }
  pose proof (loop_reachable w h Hw Hh animate rnd fuel (entry g0) s
                (reach_entry w h animate rnd g0 Hset) Hloop) as [Hr _].
  destruct (mark_endpoints w h Hw Hh (st_grid s))
    as (g1 & g2 & H1 & H2 & Hmk); [apply Hg|].
  exists g0, s. eexists _, _.
  split; [done|]. split; [done|]. split.
  { unfold generate. rewrite Hset. simpl. rewrite Hloop. simpl.
    rewrite H1. simpl. rewrite H2. simpl. reflexivity. }
  done.
Qed.

(** C1. For every [width ≥ 1], [height ≥ 1] and every sequence of random
    choices, [generate] completes and the carved passages, as edges
    between logical cells, form a spanning tree of the grid graph: there
    are exactly [width·height − 1] of them, each lying between two linked
    cells, every cell is connected to every other, and no simple cycle
    exists. *)
Theorem generate_spanning_tree w h animate rnd fuel :
  1 ≤ w → 1 ≤ h → (2 * Z.to_nat (w * h) - 1 ≤ fuel)%nat →
  ∃ m t,
    generate fuel rnd (__init__ w h) animate = Done (m, t) ∧
    passages (grid_w m) (grid_h m) (grid m) = Z.to_nat (w * h - 1) ∧
    (∀ p, carved (grid m) p ↔
          ∃ a b, linked w h (grid m) a b ∧ p = mid a b) ∧
    (∀ a b, logical w h a → logical w h b →
            rtc (linked w h (grid m)) a b) ∧
    (∀ l, ¬ cycle w h (grid m) l).
Proof.
  intros Hw Hh Hfuel.
  destruct (generate_run w h animate rnd fuel Hw Hh Hfuel)
    as (g0 & s & m & t & _ & _ & Hgen & Hr & Hst & _ & Hgw & Hgh & Hmk).
  pose proof (reachable_good w h Hw Hh animate rnd s Hr) as (Hi & Ht & Hb).
  assert (∀ a, logical w h a → rtc (linked w h (grid m)) (1, 1) a) as Hroot.
  { intros a Ha. eapply rtc_subrel; [|apply (tree_conn w h s Ht)].
    - intros x y Hxy. by apply (marked_linked w h Hw Hh (st_grid s)).
    - by apply (all_visited w h Hw Hh). }
  exists m, t. split; [done|]. split; [|split; [|split]].
  - rewrite Hgw, Hgh, (marked_passages w h Hw Hh (st_grid s)) by done.
    pose proof (tree_count w h s Ht) as Hc.
    rewrite (all_visited_size w h Hw Hh s Hi Hst) in Hc. lia.
  - intros p. split.
    + intros [Hslot Hp].
      rewrite (marked_slot w h Hw Hh (st_grid s)) in Hp by done.
      destruct (inv_walls w h s Hi p Hp)
        as [Hl|(a & b & Ha & Hb' & Hab & ->)].
      * by destruct (logical_not_slot w h p Hl).
      * exists a, b. split; [|done].
        apply (marked_linked w h Hw Hh (st_grid s)); [done|].
        split; [by apply Hi|]. split; [by apply Hi|]. done.
    + intros (a & b & (Ha & Hb' & Hab & Hp) & ->).
      split; [by apply (mid_is_slot w h)|done].
  - intros a b Ha Hb'. transitivity (1, 1); [|by apply Hroot].
    apply rtc_symmetric; [by apply (linked_sym w h Hw Hh)|by apply Hroot].
  - intros l Hc. apply (tree_acyclic w h s Ht l).
    by apply (marked_cycle w h Hw Hh (st_grid s) (grid m)).
Qed.

Lemma generate_spanning_tree_witness :
  ∃ m t,
    generate 7 (λ k, k) (__init__ 2 2) true = Done (m, t) ∧
    passages (grid_w m) (grid_h m) (grid m) = 3%nat ∧
    (∀ p, carved (grid m) p ↔
          ∃ a b, linked 2 2 (grid m) a b ∧ p = mid a b) ∧
    (∀ a b, logical 2 2 a → logical 2 2 b →
            rtc (linked 2 2 (grid m)) a b) ∧
    (∀ l, ¬ cycle 2 2 (grid m) l).
Proof. apply (generate_spanning_tree 2 2 true (λ k, k) 7); simpl; lia. Defined.

(** The loop does not end before its measure is used up. *)
Lemma loop_needs_fuel w h animate rnd fuel s :
  1 ≤ w → 1 ≤ h → good w h animate s → (fuel < measure w h s)%nat →
  loop (w * 2 + 1) (h * 2 + 1) animate rnd fuel s = OutOfFuel.
Proof.
  intros Hw Hh. revert s.
  induction fuel as [|fuel IH]; intros s Hg Hm; simpl.
  - destruct (st_stack s) eqn:Hst; [|done]. exfalso.
    pose proof (all_visited_size w h Hw Hh s (proj1 Hg) Hst) as Hsz.
    unfold measure in Hm. rewrite Hst, Hsz in Hm. simpl in Hm. lia.
  - destruct (st_stack s) eqn:Hst.
    { exfalso.
      pose proof (all_visited_size w h Hw Hh s (proj1 Hg) Hst) as Hsz.
      unfold measure in Hm. rewrite Hst, Hsz in Hm. simpl in Hm. lia. }
    destruct (loop_body_trans w h Hw Hh animate rnd s) as (s1 & -> & Ht);
      [apply (inv_safe w h Hw Hh), Hg|by rewrite Hst|].
    simpl. apply IH; [by eapply trans_good|].
    assert (S (measure w h s1) = measure w h s) as Hdec
      by (eapply trans_measure; [done..|apply Hg|done]).
    lia.
Qed.

(** C2. For every [width ≥ 1], [height ≥ 1] and every sequence of random
    choices the loop of [generate] terminates, after [2·w·h − 1]
    iterations and not before; when it does the visited set holds all
    [width·height] logical cells, each of which was put on the stack
    exactly once and popped exactly once; and in no state of the run is
    the stack empty while a cell is unvisited. *)
Theorem generate_terminates_covering w h animate rnd fuel :
  1 ≤ w → 1 ≤ h → (2 * Z.to_nat (w * h) - 1 ≤ fuel)%nat →
  ∃ g0 s m t,
    grid_set (grid (__init__ w h)) 1 1 PATH = Done g0 ∧
    loop (w * 2 + 1) (h * 2 + 1) animate rnd fuel (entry g0) = Done s ∧
    generate fuel rnd (__init__ w h) animate = Done (m, t) ∧
    st_stack s = [] ∧
    size (st_visited s) = Z.to_nat (w * h) ∧
    (∀ c, logical w h c →
          c ∈ st_visited s ∧ pushes c t = 1%nat ∧ pops c t = 1%nat) ∧
    (∀ s', reachable w h animate rnd s' → st_stack s' = [] →
           size (st_visited s') = Z.to_nat (w * h)) ∧
    (∀ fuel', (fuel' < 2 * Z.to_nat (w * h) - 1)%nat →
       loop (w * 2 + 1) (h * 2 + 1) animate rnd fuel' (entry g0) =
       OutOfFuel).
Proof.
  intros Hw Hh Hfuel.
  destruct (generate_run w h animate rnd fuel Hw Hh Hfuel)
    as (g0 & s & m & t & Hset & Hloop & Hgen & Hr & Hst & Ht & _).
  pose proof (reachable_good w h Hw Hh animate rnd s Hr) as (Hi & _ & Hb).
  exists g0, s, m, t. repeat (split; [done|]). split; [|split; [|split]];
    [| | |intros fuel' Hf; apply (loop_needs_fuel w h); [done..| |];
          [apply (reachable_good w h Hw Hh animate rnd);
             by apply reach_entry
          |unfold measure, entry; cbn [st_visited st_stack];
             rewrite size_singleton; simpl; lia]].
  - by apply (all_visited_size w h Hw Hh).
  - intros c Hc.
    assert (c ∈ st_visited s) as Hv by (by apply (all_visited w h Hw Hh)).
    split; [done|]. rewrite Ht. unfold pushes, pops.
    rewrite !count_app, !count_cons. simpl. rewrite !Nat.add_0_r.
    pose proof (book_push w h animate s Hb c) as Hpu.
    pose proof (book_pop w h animate s Hb c) as Hpo.
    rewrite decide_True in Hpu by done.
    rewrite decide_True in Hpo
      by (split; [done|rewrite Hst; apply not_elem_of_nil]).
    done.
  - intros s' Hr' Hst'. apply (all_visited_size w h Hw Hh); [done..| |done].
    by apply (reachable_good w h Hw Hh animate rnd).
Qed.

Lemma generate_terminates_covering_witness :
  ∃ g0 s m t,
    grid_set (grid (__init__ 3 2)) 1 1 PATH = Done g0 ∧
    loop 7 5 false (λ k, (2 * k)%nat) 11 (entry g0) = Done s ∧
    generate 11 (λ k, (2 * k)%nat) (__init__ 3 2) false = Done (m, t) ∧
    st_stack s = [] ∧
    size (st_visited s) = 6%nat ∧
    (∀ c, logical 3 2 c →
          c ∈ st_visited s ∧ pushes c t = 1%nat ∧ pops c t = 1%nat) ∧
    (∀ s', reachable 3 2 false (λ k, (2 * k)%nat) s' → st_stack s' = [] →
           size (st_visited s') = 6%nat) ∧
    (∀ fuel', (fuel' < 11)%nat →
       loop 7 5 false (λ k, (2 * k)%nat) fuel' (entry g0) = OutOfFuel).
Proof.
  apply (generate_terminates_covering 3 2 false (λ k, (2 * k)%nat) 11);
    simpl; lia.
Defined.

(** With a non-positive dimension the first grid write of [generate],
    [grid[1][1] = PATH], is out of range. *)
Lemma generate_raises_nonpositive w h fuel rnd animate :
  w < 1 ∨ h < 1 →
  generate fuel rnd (__init__ w h) animate = Raise IndexError.
Proof.
  intros Hdim. unfold generate.
  rewrite (grid_set_raises (w * 2 + 1) (h * 2 + 1)); [done| |lia|lia|lia].
  apply init_shaped.
Qed.

(** The constructor on the size of a terminal: no list size is out of
    range. *)
Lemma Maze_new_terminal COLS ROWS :
  - 2 ^ 31 ≤ COLS < 2 ^ 31 →
  Maze_new (MAZE_WIDTH COLS) (MAZE_HEIGHT ROWS) =
  Done (__init__ (MAZE_WIDTH COLS) (MAZE_HEIGHT ROWS)).
Proof.
  intros HC. unfold Maze_new, MAZE_WIDTH, maxsize.
  rewrite decide_False; [done|]. intros [_ Hout]. apply Hout.
  change (2 ^ 63) with 9223372036854775808.
  change (2 ^ 31) with 2147483648 in HC.
  Z.div_mod_to_equations. lia.
Qed.

(** Where the constructor fails, and that it returns everywhere
    else. *)
Lemma Maze_new_cases w h :
  (Maze_new w h = Raise OverflowError ↔
   0 ≤ h ∧ ¬ (- maxsize - 1 ≤ w * 2 + 1 ≤ maxsize)) ∧
  (Maze_new w h ≠ Raise OverflowError →
   Maze_new w h = Done (__init__ w h)) ∧
  (∀ m, Maze_new w h = Done m → m = __init__ w h).
Proof.
  unfold Maze_new. cbv zeta.
  destruct (decide (1 ≤ h * 2 + 1 ∧
                    ¬ (- maxsize - 1 ≤ w * 2 + 1 ≤ maxsize)))
    as [[Hrow Hout]|Hin].
  - split; [|split]; [|done..]. split; [|done]. intros _. split; [lia|done].
  - split; [|split].
    + split; [done|]. intros [Hh Hout]. exfalso. apply Hin.
      split; [lia|done].
    + done.
    + by intros m [= <-].
Qed.

(** C3, against the claim: construction with non-positive dimensions
    does not fail; [Maze(0, 0)] is a maze object with a one-position
    grid. *)
Lemma construction_accepts_nonpositive :
  Maze_new 0 0 =
    Done {| width := 0; height := 0; grid_w := 1; grid_h := 1;
            grid := [[WALL]]; start := (1, 1); end_ := (-1, -1) |} ∧
  ∀ e, Maze_new 0 0 ≠ Raise e.
Proof. split; [reflexivity|]. intros e. discriminate. Qed.

(** A width so far below zero that [2·width + 1] is no list size:
    building a row of [Maze(-2**62 - 1, 1)] raises
    [OverflowError]. *)
Lemma construction_overflows :
  Maze_new (- 2 ^ 62 - 1) 1 = Raise OverflowError.
Proof. reflexivity. Qed.

(** C3, as the code has it.  The constructor validates nothing.  For
    [width < 1] or [height < 1] it fails in one case only, with
    [OverflowError]: when a row is built ([height ≥ 0]) and
    [2·width + 1] is outside the range of a list size.  In every other
    case it returns the maze object, whose grid is degenerate, and on
    every object so built [generate] raises [IndexError] at its first
    grid write. *)
Theorem nonpositive_dimensions_fail_in_generate w h :
  w < 1 ∨ h < 1 →
  (Maze_new w h = Raise OverflowError ↔
   0 ≤ h ∧ ¬ (- maxsize - 1 ≤ w * 2 + 1 ≤ maxsize)) ∧
  (Maze_new w h ≠ Raise OverflowError →
   Maze_new w h = Done (__init__ w h)) ∧
  (∀ m fuel rnd animate,
     Maze_new w h = Done m →
     generate fuel rnd m animate = Raise IndexError).
Proof.
  intros Hdim. destruct (Maze_new_cases w h) as (Hover & Hdone & Hobj).
  split; [done|]. split; [done|].
  intros m fuel rnd animate Hm. rewrite (Hobj m Hm).
  by apply generate_raises_nonpositive.
Qed.

Lemma nonpositive_dimensions_fail_in_generate_witness :
  (Maze_new 0 5 = Raise OverflowError ↔
   0 ≤ 5 ∧ ¬ (- maxsize - 1 ≤ 0 * 2 + 1 ≤ maxsize)) ∧
  (Maze_new 0 5 ≠ Raise OverflowError →
   Maze_new 0 5 = Done (__init__ 0 5)) ∧
  (∀ m fuel rnd animate,
     Maze_new 0 5 = Done m →
     generate fuel rnd m animate = Raise IndexError).
Proof. apply (nonpositive_dimensions_fail_in_generate 0 5). lia. Defined.

Lemma inv_posts w h s p c :
  inv w h s → post p → grid_get (st_grid s) p = Some c → c = WALL.
Proof.
  intros Hi Hp Hc. destruct (inv_vals w h s Hi p c Hc) as [->| ->]; [done|].
  destruct (inv_walls w h s Hi p Hc) as [Hl|(a & b & Ha & _ & Hab & ->)].
  - by destruct (logical_not_post w h p Hl).
  - destruct (slot_not_post (mid a b)); [|done].
    apply (mid_is_slot w h); [by apply Hi|done].
Qed.

(** C4. In every state of the run and in the grid [generate] returns,
    every position with two even coordinates holds a wall, and no write
    of the run (visit, or endpoint marking) goes to such a position. *)
Theorem posts_stay_walls w h animate rnd :
  1 ≤ w → 1 ≤ h →
  (∀ s p c, reachable w h animate rnd s → post p →
            grid_get (st_grid s) p = Some c → c = WALL) ∧
  (∀ fuel m t,
     generate fuel rnd (__init__ w h) animate = Done (m, t) →
     (∀ p c, post p → grid_get (grid m) p = Some c → c = WALL) ∧
     (∀ x y v, Write x y v ∈ t → ¬ post (x, y))) ∧
  (∃ fuel m t, generate fuel rnd (__init__ w h) animate = Done (m, t)).
Proof.
  intros Hw Hh. split; [|split].
  - intros s p c Hr. apply (inv_posts w h s p c).
    apply (reachable_good w h Hw Hh animate rnd s Hr).
  - intros fuel m t Hgen.
    destruct (generate_inv w h Hw Hh animate rnd fuel m t Hgen)
      as (s & Hr & _ & -> & _ & _ & Hmk).
    pose proof (reachable_good w h Hw Hh animate rnd s Hr) as (Hi & _ & Hb).
    split.
    + intros p c Hp. rewrite Hmk.
      rewrite decide_False
        by (intros ->;
            by apply (logical_not_post w h _ (end_logical w h Hw Hh))).
      rewrite decide_False
        by (intros ->;
            by apply (logical_not_post w h _ (origin_logical w h Hw Hh))).
      by apply (inv_posts w h).
    + intros x y v [Hin|Hin]%elem_of_app.
      * by apply (book_writes w h animate s Hb x y v).
      * apply elem_of_cons in Hin as [[= -> -> ->]|Hin].
        { apply (logical_not_post w h _ (origin_logical w h Hw Hh)). }
        apply list_elem_of_singleton in Hin as [= -> -> ->].
        apply (logical_not_post w h _ (end_logical w h Hw Hh)).
  - exists (2 * Z.to_nat (w * h) - 1)%nat.
    by apply (generate_total w h Hw Hh animate rnd).
Qed.

Lemma posts_stay_walls_witness :
  (∀ s p c, reachable 2 3 true (λ k, k) s → post p →
            grid_get (st_grid s) p = Some c → c = WALL) ∧
  (∀ fuel m t,
     generate fuel (λ k, k) (__init__ 2 3) true = Done (m, t) →
     (∀ p c, post p → grid_get (grid m) p = Some c → c = WALL) ∧
     (∀ x y v, Write x y v ∈ t → ¬ post (x, y))) ∧
  (∃ fuel m t, generate fuel (λ k, k) (__init__ 2 3) true = Done (m, t)).
Proof. apply (posts_stay_walls 2 3 true (λ k, k)); lia. Defined.

(** C5, against the claim: with animation on, a 1 × 1 maze takes one
    step (a backtrack) and emits no snapshot. *)
Lemma no_snapshot_after_backtrack :
  ∃ m t,
    generate 1 (λ _, 0%nat) (__init__ 1 1) true = Done (m, t) ∧
    emissions t = 0%nat ∧
    (visit_steps t + backtrack_steps t)%nat = 1%nat ∧
    emissions t ≠ (visit_steps t + backtrack_steps t)%nat.
Proof. eexists _, _. split; [vm_compute; reflexivity|]. by vm_compute. Qed.

(** What one iteration adds to the trace, read off [loop_body]: a
    backtrack adds the pop alone; a visit adds the two writes, the push
    and, with animation, the snapshot of the grid as the step leaves it
    and the pause. *)
Lemma loop_body_emits gw gh animate rnd s s' :
  loop_body gw gh animate rnd s = Done s' →
  (candidates gw gh s = [] →
   ∃ c, last (st_stack s) = Some c ∧
        st_trace s' = st_trace s ++ [Pop c]) ∧
  (candidates gw gh s ≠ [] →
   ∃ x y n, last (st_stack s') = Some n ∧
     st_trace s' =
       st_trace s ++
       [Write x y PATH; Write n.1 n.2 PATH; Append n] ++
       (if animate then [Display (st_grid s'); Sleep] else [])).
Proof.
  unfold loop_body, candidates.
  destruct (last (st_stack s)) as [[x y]|]; [|done].
  destruct (neighbors gw gh (st_visited s) x y) as [|d ns] eqn:Hn.
  - intros [= <-]. split; [|done]. intros _. by exists (x, y).
  - destruct (choice rnd (st_draws s) (d :: ns) d) as [[[nx ny] wx] wy].
    destruct (grid_set (st_grid s) (x + wx) (y + wy) PATH) as [g1| |];
      simpl; try done.
    destruct (grid_set g1 nx ny PATH) as [g2| |]; simpl; try done.
    intros [= <-]. split; [done|]. intros _.
    exists (x + wx), (y + wy), (nx, ny). simpl.
    by rewrite last_snoc.
Qed.

Section Blocks.
Variables w h : Z.
Hypothesis Hw : 1 ≤ w.
Hypothesis Hh : 1 ≤ h.
Variable animate : bool.
#[local] Set Default Proof Using "Hw Hh".

(** The trace of a run, step by step: after the first write, the
    events of one step after those of another. *)
Definition blocked (s : state) : Prop :=
  ∃ blocks,
    st_trace s = Write 1 1 PATH :: concat blocks ∧
    Forall (step_block animate) blocks.

Lemma trans_blocked s s' : blocked s → trans w h animate s s' → blocked s'.
Proof.
  intros (blocks & Ht & Hb) Hstep.
  destruct Hstep as [g stk c vis k t Hall
                    |g g' stk c n vis k t Hadj Hn Hnv Hs' Hg'];
    unfold blocked; cbn [st_trace] in *.
  - exists (blocks ++ [[Pop c]]). split.
    + rewrite Ht, concat_app. simpl. by rewrite ?app_nil_r.
    + apply Forall_app. split; [done|]. apply Forall_singleton.
      left. by exists c.
  - exists (blocks ++ [visit_events animate c n g']). split.
    + rewrite Ht, concat_app. simpl. by rewrite ?app_nil_r.
    + apply Forall_app. split; [done|]. apply Forall_singleton.
      right. by exists (mid c n).1, (mid c n).2, n, g'.
Qed.

Lemma reachable_blocked rnd s : reachable w h animate rnd s → blocked s.
Proof.
  induction 1 as [g0 Hset|s s' Hr IH Hne Hbody].
  - by exists [].
  - pose proof (reachable_good w h Hw Hh animate rnd s Hr) as (Hi & _).
    destruct (loop_body_trans w h Hw Hh animate rnd s
                (inv_safe w h Hw Hh s Hi) Hne) as (s1 & Hbody' & Ht).
    rewrite Hbody in Hbody'. injection Hbody' as <-.
    by apply (trans_blocked s).
Qed.
End Blocks.

(** C5, as the code has it.  A snapshot is emitted after a visit step
    and after no other: a backtrack step adds its pop to the trace and
    nothing else; a visit step adds its two writes and its push and,
    with animation, the snapshot of the grid as the step leaves it, then
    the pause.  So the trace of a run is, between the first write and
    the two writes that mark the endpoints, the events of one step
    after those of another.  With animation the snapshots of a run
    number its visit steps, [width·height − 1], while its
    [width·height] backtrack steps emit nothing; without animation
    nothing is emitted. *)
Theorem emissions_are_visits w h animate rnd :
  1 ≤ w → 1 ≤ h →
  (∀ s s',
     loop_body (w * 2 + 1) (h * 2 + 1) animate rnd s = Done s' →
     (candidates (w * 2 + 1) (h * 2 + 1) s = [] →
      ∃ c, last (st_stack s) = Some c ∧
           st_trace s' = st_trace s ++ [Pop c]) ∧
     (candidates (w * 2 + 1) (h * 2 + 1) s ≠ [] →
      ∃ x y n, last (st_stack s') = Some n ∧
        st_trace s' =
          st_trace s ++
          [Write x y PATH; Write n.1 n.2 PATH; Append n] ++
          (if animate then [Display (st_grid s'); Sleep] else []))) ∧
  (∀ fuel m t,
     generate fuel rnd (__init__ w h) animate = Done (m, t) →
     (∃ blocks,
        t = Write 1 1 PATH :: concat blocks ++
            [Write 1 1 START; Write (grid_w m - 2) (grid_h m - 2) END] ∧
        Forall (step_block animate) blocks) ∧
     emissions t = (if animate then visit_steps t else 0%nat) ∧
     visit_steps t = (Z.to_nat (w * h) - 1)%nat ∧
     backtrack_steps t = Z.to_nat (w * h)) ∧
  (∃ fuel m t, generate fuel rnd (__init__ w h) animate = Done (m, t)).
Proof.
  intros Hw Hh. split; [|split].
  - intros s s'. apply loop_body_emits.
  - intros fuel m t Hgen.
    destruct (generate_inv w h Hw Hh animate rnd fuel m t Hgen)
      as (s & Hr & Hst & -> & -> & Hmk).
    pose proof (reachable_good w h Hw Hh animate rnd s Hr) as (Hi & _ & Hb).
    pose proof (all_visited_size w h Hw Hh s Hi Hst) as Hsz.
    pose proof (book_visits w h animate s Hb) as Hv.
    pose proof (book_backtracks w h animate s Hb) as Hk.
    pose proof (book_emissions w h animate s Hb) as He.
    destruct (reachable_blocked w h Hw Hh animate rnd s Hr)
      as (blocks & Ht & Hbl).
    split.
    { exists blocks. split; [|done]. cbn [grid_w grid_h]. by rewrite Ht. }
    rewrite Hst in Hk. simpl in Hk.
    unfold emissions, visit_steps, backtrack_steps in *.
    rewrite !count_app, !count_cons. simpl. rewrite !Nat.add_0_r.
    split; [done|]. lia.
  - exists (2 * Z.to_nat (w * h) - 1)%nat.
    by apply (generate_total w h Hw Hh animate rnd).
Qed.

Lemma emissions_are_visits_witness :
  (∀ s s',
     loop_body 5 3 true (λ k, k) s = Done s' →
     (candidates 5 3 s = [] →
      ∃ c, last (st_stack s) = Some c ∧
           st_trace s' = st_trace s ++ [Pop c]) ∧
     (candidates 5 3 s ≠ [] →
      ∃ x y n, last (st_stack s') = Some n ∧
        st_trace s' =
          st_trace s ++
          [Write x y PATH; Write n.1 n.2 PATH; Append n] ++
          [Display (st_grid s'); Sleep])) ∧
  (∀ fuel m t,
     generate fuel (λ k, k) (__init__ 2 1) true = Done (m, t) →
     (∃ blocks,
        t = Write 1 1 PATH :: concat blocks ++
            [Write 1 1 START; Write (grid_w m - 2) (grid_h m - 2) END] ∧
        Forall (step_block true) blocks) ∧
     emissions t = visit_steps t ∧
     visit_steps t = 1%nat ∧
     backtrack_steps t = 2%nat) ∧
  (∃ fuel m t, generate fuel (λ k, k) (__init__ 2 1) true = Done (m, t)).
Proof. apply (emissions_are_visits 2 1 true (λ k, k)); lia. Defined.

(** C6. Generation is a function of the dimensions and of the choices the
    random source makes: two random sources that agree on the
    [width·height − 1] draws a run makes give the same outcome, hence
    the same final grid, whatever they return afterwards. *)
Theorem generate_deterministic w h animate fuel rnd1 rnd2 :
  (∀ k, (k < Z.to_nat (w * h) - 1)%nat → rnd1 k = rnd2 k) →
  generate fuel rnd1 (__init__ w h) animate =
  generate fuel rnd2 (__init__ w h) animate.
Proof.
  intros Hagree.
  destruct (decide (1 ≤ w ∧ 1 ≤ h)) as [[Hw Hh]|Hdim].
  - by apply generate_ext.
  - assert (w < 1 ∨ h < 1) as Hbad by lia.
    by rewrite !generate_raises_nonpositive.
Qed.

Lemma generate_deterministic_witness :
  generate 7 (λ k, k) (__init__ 2 2) false =
  generate 7 (λ k, if (k <? 3)%nat then k else 9%nat) (__init__ 2 2) false.
Proof.
  apply (generate_deterministic 2 2 false 7).
  intros k Hk. simpl in Hk. do 3 (destruct k as [|k]; [reflexivity|]). lia.
Defined.

(** C7. A 1 × 1 maze has the single logical cell [(1, 1)]; [generate]
    carves no passage between cells, and the start position is the end
    position. *)
Theorem generate_single_cell rnd animate fuel :
  (1 ≤ fuel)%nat →
  ∃ m t,
    generate fuel rnd (__init__ 1 1) animate = Done (m, t) ∧
    cells (width m) (height m) = [(1, 1)] ∧
    grid m = [[WALL; WALL; WALL]; [WALL; END; WALL]; [WALL; WALL; WALL]] ∧
    passages (grid_w m) (grid_h m) (grid m) = 0%nat ∧
    (∀ a b, ¬ linked 1 1 (grid m) a b) ∧
    start m = end_ m.
Proof.
  intros Hfuel.
  assert (∀ a b, ¬ (logical 1 1 a ∧ logical 1 1 b ∧ adjacent a b)) as Hnone.
  { intros a b ((ax & ay & ? & ? & ->) & (bx & by_ & ? & ? & ->) & Hab).
    apply adjacent_ne in Hab. apply Hab. f_equal; lia. }
  destruct fuel as [|[|fuel]]; [lia| |];
    (eexists _, _; split; [vm_compute; reflexivity|];
     repeat (split; [by vm_compute|]);
     split; [|done]; intros a b (? & ? & ? & _); by apply (Hnone a b)).
Qed.

Lemma generate_single_cell_witness :
  ∃ m t,
    generate 1 (λ k, k) (__init__ 1 1) true = Done (m, t) ∧
    cells (width m) (height m) = [(1, 1)] ∧
    grid m = [[WALL; WALL; WALL]; [WALL; END; WALL]; [WALL; WALL; WALL]] ∧
    passages (grid_w m) (grid_h m) (grid m) = 0%nat ∧
    (∀ a b, ¬ linked 1 1 (grid m) a b) ∧
    start m = end_ m.
Proof. apply (generate_single_cell (λ k, k) true 1). lia. Defined.

(** C8. For [width ≥ 1], [height ≥ 1] and every random source,
    [generate] raises nothing: no iteration of its loop can fail, every
    grid write of the run has its column in [0, grid_w) and its row in
    [0, grid_h), and with fuel for [2·w·h − 1] iterations it returns. *)
Theorem generate_cannot_fail w h animate rnd :
  1 ≤ w → 1 ≤ h →
  (∀ fuel e, generate fuel rnd (__init__ w h) animate ≠ Raise e) ∧
  (∀ s, reachable w h animate rnd s → st_stack s ≠ [] →
        ∃ s', loop_body (w * 2 + 1) (h * 2 + 1) animate rnd s = Done s') ∧
  (∀ fuel, (2 * Z.to_nat (w * h) - 1 ≤ fuel)%nat →
           ∃ m t, generate fuel rnd (__init__ w h) animate = Done (m, t)) ∧
  (∀ fuel m t,
     generate fuel rnd (__init__ w h) animate = Done (m, t) →
     ∀ x y v, Write x y v ∈ t → 0 ≤ x < grid_w m ∧ 0 ≤ y < grid_h m).
Proof.
  intros Hw Hh. split; [|split; [|split]].
  - intros fuel e. by apply generate_never_raises.
  - intros s Hr Hne.
    pose proof (reachable_good w h Hw Hh animate rnd s Hr) as (Hi & _).
    destruct (loop_body_trans w h Hw Hh animate rnd s
                (inv_safe w h Hw Hh s Hi) Hne) as (s' & Hbody & _).
    by exists s'.
  - intros fuel Hfuel. by apply generate_total.
  - intros fuel m t Hgen.
    destruct (generate_inv w h Hw Hh animate rnd fuel m t Hgen)
      as (s & Hr & _ & -> & -> & Hmk).
    pose proof (reachable_good w h Hw Hh animate rnd s Hr) as (_ & _ & Hb).
    simpl. intros x y v [Hin|Hin]%elem_of_app.
    + by destruct (book_writes w h animate s Hb x y v Hin) as (_ & ? & _).
    + apply elem_of_cons in Hin as [[= -> -> ->]|Hin]; [lia|].
      apply list_elem_of_singleton in Hin as [= -> -> ->]. lia.
Qed.

Lemma generate_cannot_fail_witness :
  (∀ fuel e, generate fuel (λ k, k) (__init__ 3 3) true ≠ Raise e) ∧
  (∀ s, reachable 3 3 true (λ k, k) s → st_stack s ≠ [] →
        ∃ s', loop_body 7 7 true (λ k, k) s = Done s') ∧
  (∀ fuel, (17 ≤ fuel)%nat →
           ∃ m t, generate fuel (λ k, k) (__init__ 3 3) true = Done (m, t)) ∧
  (∀ fuel m t,
     generate fuel (λ k, k) (__init__ 3 3) true = Done (m, t) →
     ∀ x y v, Write x y v ∈ t → 0 ≤ x < grid_w m ∧ 0 ≤ y < grid_h m).
Proof. apply (generate_cannot_fail 3 3 true (λ k, k)); lia. Defined.

(** C9. The run ends with the write of Start at [(1, 1)] followed by the
    write of End at [(grid_w − 2, grid_h − 2)], the only writes that are
    not of a passage.  The returned grid holds End at the end position
    and nowhere else, and Start at [(1, 1)] alone and only when the maze
    is not 1 × 1: there the two positions coincide, End overwrites
    Start, and the grid has an End cell but no Start cell. *)
Theorem endpoint_marking w h animate rnd fuel m t :
  1 ≤ w → 1 ≤ h →
  generate fuel rnd (__init__ w h) animate = Done (m, t) →
  (∃ t0, t = t0 ++ [Write 1 1 START;
                     Write (grid_w m - 2) (grid_h m - 2) END] ∧
         ∀ x y v, Write x y v ∈ t0 → v = PATH) ∧
  start m = (1, 1) ∧ end_ m = (grid_w m - 2, grid_h m - 2) ∧
  (∀ p, grid_get (grid m) p = Some END ↔ p = end_ m) ∧
  (∀ p, grid_get (grid m) p = Some START ↔
        p = (1, 1) ∧ ¬ (w = 1 ∧ h = 1)) ∧
  (w = 1 → h = 1 →
   start m = end_ m ∧ ∀ p, grid_get (grid m) p ≠ Some START).
Proof.
  intros Hw Hh Hgen.
  destruct (generate_inv w h Hw Hh animate rnd fuel m t Hgen)
    as (s & Hr & _ & -> & Hm & Hsh & Hmk).
  pose proof (reachable_good w h Hw Hh animate rnd s Hr) as (Hi & _ & Hb).
  assert (∀ p, grid_get (st_grid s) p ≠ Some START ∧
               grid_get (st_grid s) p ≠ Some END) as Hold.
  { intros p. split; intros Hp;
      by destruct (inv_vals w h s Hi p _ Hp). }
  assert (∀ p, grid_get (grid m) p = Some START ↔
               p = (1, 1) ∧ ¬ (w = 1 ∧ h = 1)) as Hstart.
  { intros p. rewrite Hmk. case_decide as He.
    - split; [done|]. intros [-> Hn]. injection He as ? ?. lia.
    - case_decide as Ho.
      + split; [|done]. intros _. split; [done|].
        intros [-> ->]. by apply He.
      + split; [by intros ?%Hold|]. by intros [? _]. }
  rewrite Hm. cbn [grid_w grid_h start end_ grid].
  split; [|split; [done|split; [done|split; [|split; [done|]]]]].
  - exists (st_trace s). split; [done|].
    intros x y v Hin. by destruct (book_writes w h animate s Hb x y v Hin).
  - intros p. rewrite Hmk. case_decide as He; [done|].
    case_decide; (split; [|done]); [done|]. by intros ?%Hold.
  - intros -> ->. split; [done|]. intros p Hp.
    apply Hstart in Hp as [_ Hn]. by apply Hn.
Qed.

Lemma endpoint_marking_witness :
  ∃ m t,
    generate 1 (λ k, k) (__init__ 1 1) false = Done (m, t) ∧
    (∃ t0, t = t0 ++ [Write 1 1 START;
                       Write (grid_w m - 2) (grid_h m - 2) END] ∧
           ∀ x y v, Write x y v ∈ t0 → v = PATH) ∧
    start m = (1, 1) ∧ end_ m = (grid_w m - 2, grid_h m - 2) ∧
    (∀ p, grid_get (grid m) p = Some END ↔ p = end_ m) ∧
    (∀ p, grid_get (grid m) p = Some START ↔
          p = (1, 1) ∧ ¬ (1 = 1 ∧ 1 = 1)) ∧
    (1 = 1 → 1 = 1 →
     start m = end_ m ∧ ∀ p, grid_get (grid m) p ≠ Some START).
Proof.
  assert (∃ m t, generate 1 (λ k, k) (__init__ 1 1) false = Done (m, t))
    as (m & t & Hgen) by (eexists _, _; vm_compute; reflexivity).
  exists m, t. split; [done|].
  apply (endpoint_marking 1 1 false (λ k, k) 1 m t); [lia|lia|done].
Defined.

Lemma loop_monotone w h animate rnd fuel s s' q :
  1 ≤ w → 1 ≤ h → good w h animate s →
  loop (w * 2 + 1) (h * 2 + 1) animate rnd fuel s = Done s' →
  grid_get (st_grid s) q = Some PATH → grid_get (st_grid s') q = Some PATH.
Proof.
  intros Hw Hh. revert s.
  induction fuel as [|fuel IH]; intros s Hg; simpl.
  - destruct (st_stack s); [by intros [= <-]|done].
  - destruct (st_stack s) eqn:Hst; [by intros [= <-]|].
    assert (st_stack s ≠ []) as Hne by (by rewrite Hst).
    destruct (loop_body_trans w h Hw Hh animate rnd s) as (s1 & Hbody & Ht);
      [apply (inv_safe w h Hw Hh), Hg|done|].
    rewrite Hbody. simpl. intros Hloop Hq.
    apply (IH s1); [by eapply trans_good|done|].
    by apply (loop_body_monotone w h Hw Hh animate rnd s s1).
Qed.

(** C10. One iteration from a state of the run: a backtrack step (no
    candidate) leaves every grid position as it is; a visit step changes
    exactly two positions, the chosen cell [n] and the wall [mid c n]
    between it and the current cell [c], both from wall to passage.  So
    a passage stays a passage, in the step and through the rest of the
    loop. *)
Theorem step_frame w h animate rnd s s' :
  1 ≤ w → 1 ≤ h →
  reachable w h animate rnd s → st_stack s ≠ [] →
  loop_body (w * 2 + 1) (h * 2 + 1) animate rnd s = Done s' →
  (candidates (w * 2 + 1) (h * 2 + 1) s = [] →
   st_grid s' = st_grid s ∧ st_stack s' = removelast (st_stack s)) ∧
  (candidates (w * 2 + 1) (h * 2 + 1) s ≠ [] →
   ∃ c n, last (st_stack s) = Some c ∧ last (st_stack s') = Some n ∧
          adjacent c n ∧ n ≠ mid c n ∧
          grid_get (st_grid s) n = Some WALL ∧
          grid_get (st_grid s) (mid c n) = Some WALL ∧
          grid_get (st_grid s') n = Some PATH ∧
          grid_get (st_grid s') (mid c n) = Some PATH ∧
          ∀ q, q ≠ n → q ≠ mid c n →
               grid_get (st_grid s') q = grid_get (st_grid s) q) ∧
  (∀ q, grid_get (st_grid s) q = Some PATH →
        grid_get (st_grid s') q = Some PATH) ∧
  (∀ fuel s'' q,
     loop (w * 2 + 1) (h * 2 + 1) animate rnd fuel s = Done s'' →
     grid_get (st_grid s) q = Some PATH →
     grid_get (st_grid s'') q = Some PATH).
Proof.
  intros Hw Hh Hr Hne Hbody.
  pose proof (reachable_good w h Hw Hh animate rnd s Hr) as Hg.
  destruct (loop_body_frame w h Hw Hh animate rnd s s' Hg Hne Hbody)
    as [Hback Hvisit].
  split; [|split; [done|split]].
  - intros Hc.
    by destruct (loop_body_backtrack w h Hw Hh animate rnd s s' Hc Hbody)
      as (? & _ & ?).
  - intros q. by apply (loop_body_monotone w h Hw Hh animate rnd s s').
  - intros fuel s'' q. by apply (loop_monotone w h animate rnd fuel s s'').
Qed.

Lemma step_frame_witness :
  let rnd := λ k : nat, k in
  let s := entry [[WALL; WALL; WALL; WALL; WALL];
                  [WALL; PATH; WALL; WALL; WALL];
                  [WALL; WALL; WALL; WALL; WALL]] in
  ∃ s',
    loop_body 5 3 true rnd s = Done s' ∧
    (candidates 5 3 s = [] →
     st_grid s' = st_grid s ∧ st_stack s' = removelast (st_stack s)) ∧
    (candidates 5 3 s ≠ [] →
     ∃ c n, last (st_stack s) = Some c ∧ last (st_stack s') = Some n ∧
            adjacent c n ∧ n ≠ mid c n ∧
            grid_get (st_grid s) n = Some WALL ∧
            grid_get (st_grid s) (mid c n) = Some WALL ∧
            grid_get (st_grid s') n = Some PATH ∧
            grid_get (st_grid s') (mid c n) = Some PATH ∧
            ∀ q, q ≠ n → q ≠ mid c n →
                 grid_get (st_grid s') q = grid_get (st_grid s) q) ∧
    (∀ q, grid_get (st_grid s) q = Some PATH →
          grid_get (st_grid s') q = Some PATH) ∧
    (∀ fuel s'' q,
       loop 5 3 true rnd fuel s = Done s'' →
       grid_get (st_grid s) q = Some PATH →
       grid_get (st_grid s'') q = Some PATH).
Proof.
  intros rnd s.
  assert (reachable 2 1 true rnd s) as Hr
    by (apply reach_entry; vm_compute; reflexivity).
  assert (st_stack s ≠ []) as Hne by done.
  eexists. split; [vm_compute; reflexivity|].
  apply (step_frame 2 1 true rnd s); [lia|lia|exact Hr|exact Hne|].
  vm_compute. reflexivity.
Defined.

(** * More on the carving *)

(** ** Lists of linked cells *)

Lemma path_single {A} (a b : A) (l : list A) :
  head l = Some a → last l = Some b → NoDup l → a = b → l = [a].
Proof.
  intros Hh Hl Hnd <-. destruct l as [|x l]; [done|].
  injection Hh as ->. destruct l as [|y l]; [done|]. exfalso.
  apply NoDup_cons in Hnd as [Hn _]. apply Hn.
  change (last (a :: y :: l)) with (last (y :: l)) in Hl.
  by apply last_Some_elem_of.
Qed.

Lemma chain_snoc w h g l z n :
  last l = Some z → chain w h g l → linked w h g z n →
  chain w h g (l ++ [n]).
Proof.
  induction l as [|a l IH]; [done|]. intros Hl Hc Hz.
  destruct l as [|b l].
  - injection Hl as ->. by split.
  - destruct Hc as [Hab Hc]. split; [done|]. by apply IH.
Qed.

Lemma chain_init w h g l n : chain w h g (l ++ [n]) → chain w h g l.
Proof.
  induction l as [|a l IH]; [done|]. intros Hc.
  destruct l as [|b l]; [done|].
  destruct Hc as [Hab Hc]. split; [done|]. by apply IH.
Qed.

Lemma chain_last w h g l z n :
  last l = Some z → chain w h g (l ++ [n]) → linked w h g z n.
Proof.
  induction l as [|a l IH]; [done|]. intros Hl Hc.
  destruct l as [|b l].
  - injection Hl as ->. by destruct Hc.
  - destruct Hc as [_ Hc]. by apply IH.
Qed.

Lemma chain_tail w h g a l : chain w h g (a :: l) → chain w h g l.
Proof. destruct l; [done|]. by intros [_ ?]. Qed.

(** A member of a chain that is neither its first nor its last has a
    link on either side, to two different cells. *)
Lemma chain_inner w h g l a b n :
  head l = Some a → last l = Some b → NoDup l → chain w h g l →
  n ∈ l → n ≠ a → n ≠ b →
  ∃ x y, x ≠ y ∧ linked w h g x n ∧ linked w h g n y.
Proof.
  intros Hhd Hl Hnd Hc Hn Hna Hnb.
  apply list_elem_of_split in Hn as (l1 & l2 & ->).
  destruct (decide (l1 = [])) as [->|Hl1].
  { simpl in Hhd. by injection Hhd as ->. }
  destruct l2 as [|y l2].
  { rewrite last_snoc in Hl. by injection Hl as ->. }
  destruct (exists_last Hl1) as (l1' & x & ->).
  exists x, y. split; [|split].
  - intros ->. rewrite <-app_assoc in Hnd. simpl in Hnd.
    apply NoDup_app in Hnd as (_ & _ & Hnd).
    apply NoDup_cons in Hnd as [Hx _]. apply Hx. right. by left.
  - rewrite <-app_assoc in Hc. simpl in Hc.
    clear -Hc. induction l1' as [|z l1' IH]; [by destruct Hc|].
    apply IH. by apply chain_tail in Hc.
  - clear -Hc. induction (l1' ++ [x]) as [|z l IH]; [by destruct Hc|].
    apply IH. by apply chain_tail in Hc.
Qed.

(** ** The routes the carving keeps *)

Section Route.
Variables w h : Z.
Hypothesis Hw : 1 ≤ w.
Hypothesis Hh : 1 ≤ h.
Variable animate : bool.
#[local] Set Default Proof Using "Hw Hh".

Local Abbreviation gw := (w * 2 + 1).
Local Abbreviation gh := (h * 2 + 1).

(** The stack spells out the carved route from the origin to the
    current cell, and between any two visited cells there is one route
    and no other. *)
Record route (s : state) : Prop := {
  route_chain : chain w h (st_grid s) (st_stack s);
  route_head : st_stack s ≠ [] → head (st_stack s) = Some (1, 1);
  route_exists : ∀ a b,
    a ∈ st_visited s → b ∈ st_visited s →
    ∃ l, path w h (st_grid s) a b l;
  route_unique : ∀ a b l1 l2,
    path w h (st_grid s) a b l1 → path w h (st_grid s) a b l2 → l1 = l2
}.

Lemma path_visited s a b l x :
  inv w h s → path w h (st_grid s) a b l → a ∈ st_visited s →
  x ∈ l → x ∈ st_visited s.
Proof.
  intros Hi (Hhd & _ & _ & Hc) Ha Hx.
  destruct l as [|a' l]; [done|]. injection Hhd as ->.
  revert a Ha Hc Hx. induction l as [|y l IH]; intros a Ha Hc Hx.
  - by apply list_elem_of_singleton in Hx as ->.
  - apply elem_of_cons in Hx as [->|Hx]; [done|].
    destruct Hc as [Hay Hc].
    apply (IH y); [|done..].
    by destruct (linked_visited w h Hw Hh s a y Hi Hay).
Qed.

Section Leaf.
#[local] Set Default Proof Using "All".
Variables (s : state) (c n : pos) (g' : grid_t).
Hypothesis Hi : inv w h s.
Hypothesis Hc : c ∈ st_visited s.
Hypothesis Hadj : adjacent c n.
Hypothesis Hn : logical w h n.
Hypothesis Hnv : n ∉ st_visited s.
Hypothesis Hg' : ∀ q, grid_get g' q =
  if decide (q = n ∨ q = mid c n) then Some PATH
  else grid_get (st_grid s) q.

Lemma leaf_old a b : linked w h (st_grid s) a b → linked w h g' a b.
Proof.
  intros Hl.
  apply (visit_linked w h Hw Hh animate s c n g' Hi Hc Hadj Hn Hnv Hg').
  by left.
Qed.

Lemma leaf_link : linked w h g' c n.
Proof.
  apply (visit_linked w h Hw Hh animate s c n g' Hi Hc Hadj Hn Hnv Hg').
  right. by left.
Qed.

Lemma leaf_back a b :
  a ≠ n → b ≠ n → linked w h g' a b → linked w h (st_grid s) a b.
Proof.
  intros Ha Hb Hl.
  apply (visit_linked w h Hw Hh animate s c n g' Hi Hc Hadj Hn Hnv Hg')
    in Hl as [?|[[_ ?]|[? _]]]; done.
Qed.

Lemma leaf_only x : linked w h g' n x ∨ linked w h g' x n → x = c.
Proof.
  apply (visit_fresh_neighbour w h Hw Hh animate s c n g'
           Hi Hc Hadj Hn Hnv Hg').
Qed.

Lemma leaf_chain_old l : chain w h (st_grid s) l → chain w h g' l.
Proof.
  apply (chain_mono w h Hw Hh). intros a b _ _. apply leaf_old.
Qed.

Lemma leaf_chain_back l : n ∉ l → chain w h g' l → chain w h (st_grid s) l.
Proof.
  intros Hnl. apply (chain_mono w h Hw Hh). intros a b Ha Hb.
  apply leaf_back; by intros ->.
Qed.

(** The new cell hangs on one passage: it lies on a route at an end
    only. *)
Lemma leaf_at_end a b l : path w h g' a b l → n ∈ l → a = n ∨ b = n.
Proof.
  intros (Hhd & Hl & Hnd & Hch) Hnl.
  destruct (decide (a = n)) as [|Ha]; [by left|].
  destruct (decide (b = n)) as [|Hb]; [by right|]. exfalso.
  destruct (chain_inner w h g' l a b n) as (x & y & Hxy & Hx & Hy);
    try done; try (by intros ->).
  apply Hxy. rewrite (leaf_only x), (leaf_only y); auto.
Qed.

Lemma leaf_path_old a b l :
  a ≠ n → b ≠ n → path w h g' a b l → path w h (st_grid s) a b l.
Proof.
  intros Ha Hb Hp. pose proof Hp as (Hhd & Hl & Hnd & Hch).
  repeat split; try done. apply leaf_chain_back; [|done].
  intros Hnl. by destruct (leaf_at_end a b l Hp Hnl).
Qed.

(** A route to the new cell is a route to [c] with the new cell put
    at its end. *)
Lemma leaf_path_to a l :
  a ≠ n → path w h g' a n l →
  ∃ l', l = l' ++ [n] ∧ path w h (st_grid s) a c l'.
Proof.
  intros Ha (Hhd & Hl & Hnd & Hch).
  destruct (decide (l = [])) as [->|Hne]; [done|].
  destruct (exists_last Hne) as (l' & z & ->).
  rewrite last_snoc in Hl. injection Hl as ->.
  exists l'. split; [done|].
  apply NoDup_app in Hnd as (Hnd & Hdis & _).
  assert (n ∉ l') as Hnl.
  { intros Hin. apply (Hdis n Hin). by left. }
  destruct l' as [|a' l']; [simpl in Hhd; by injection Hhd as ->|].
  simpl in Hhd. injection Hhd as ->.
  destruct (last (a :: l')) as [z|] eqn:Hz;
    [|by apply last_None in Hz].
  pose proof (chain_last w h g' _ z n Hz Hch) as Hzn.
  rewrite (leaf_only z) in Hz by auto.
  repeat split; try done.
  apply leaf_chain_back; [done|]. by apply chain_init in Hch.
Qed.

Lemma leaf_path_from b l :
  b ≠ n → path w h g' n b l →
  ∃ l', l = n :: l' ∧ path w h (st_grid s) c b l'.
Proof.
  intros Hb (Hhd & Hl & Hnd & Hch).
  destruct l as [|n' l']; [done|]. injection Hhd as ->.
  exists l'. split; [done|].
  apply NoDup_cons in Hnd as [Hnl Hnd].
  destruct l' as [|z l']; [simpl in Hl; by injection Hl as ->|].
  destruct Hch as [Hnz Hch].
  rewrite (leaf_only z) in * by auto.
  repeat split; try done.
  by apply leaf_chain_back.
Qed.

Lemma leaf_unique a b l1 l2 :
  (∀ a b l1 l2, path w h (st_grid s) a b l1 →
                path w h (st_grid s) a b l2 → l1 = l2) →
  path w h g' a b l1 → path w h g' a b l2 → l1 = l2.
Proof.
  intros Huniq H1 H2.
  destruct (decide (a = b)) as [Hab|Hab].
  { destruct H1 as (? & ? & ? & _), H2 as (? & ? & ? & _).
    rewrite (path_single a b l1), (path_single a b l2); done. }
  destruct (decide (a = n)) as [->|Ha].
  - destruct (leaf_path_from b l1) as (l1' & -> & H1'); [done..|].
    destruct (leaf_path_from b l2) as (l2' & -> & H2'); [done..|].
    f_equal. by apply (Huniq c b).
  - destruct (decide (b = n)) as [->|Hb].
    + destruct (leaf_path_to a l1) as (l1' & -> & H1'); [done..|].
      destruct (leaf_path_to a l2) as (l2' & -> & H2'); [done..|].
      f_equal. by apply (Huniq a c).
    + apply (Huniq a b); by apply leaf_path_old.
Qed.

Lemma leaf_exists a b :
  (∀ a b, a ∈ st_visited s → b ∈ st_visited s →
          ∃ l, path w h (st_grid s) a b l) →
  a ∈ {[n]} ∪ st_visited s → b ∈ {[n]} ∪ st_visited s →
  ∃ l, path w h g' a b l.
Proof.
  intros Hex Ha Hb.
  apply elem_of_add in Ha, Hb.
  destruct (decide (a = b)) as [<-|Hab].
  { exists [a]. repeat split; try done. apply NoDup_singleton. }
  destruct Ha as [->|Ha], Hb as [->|Hb]; [done| | |].
  - destruct (Hex c b Hc Hb) as (l & Hp).
    pose proof Hp as (Hhd & Hl & Hnd & Hch).
    exists (n :: l). repeat split; try done.
    + simpl. destruct l; done.
    + apply NoDup_cons. split; [|done]. intros Hin.
      apply Hnv. by apply (path_visited s c b l n).
    + destruct l as [|c' l]; [done|]. injection Hhd as ->.
      split; [apply (linked_sym w h Hw Hh), leaf_link|].
      by apply leaf_chain_old.
  - destruct (Hex a c Ha Hc) as (l & Hp).
    pose proof Hp as (Hhd & Hl & Hnd & Hch).
    exists (l ++ [n]). repeat split.
    + destruct l; done.
    + by rewrite last_snoc.
    + apply NoDup_app. split; [done|]. split; [|apply NoDup_singleton].
      intros x Hx ->%list_elem_of_singleton.
      apply Hnv. by apply (path_visited s a c l n).
    + apply (chain_snoc w h g' l c n); [done| |apply leaf_link].
      by apply leaf_chain_old.
  - destruct (Hex a b Ha Hb) as (l & Hhd & Hl & Hnd & Hch).
    exists l. repeat split; try done. by apply leaf_chain_old.
Qed.
End Leaf.

Lemma trans_route s s' :
  inv w h s → route s → trans w h animate s s' → route s'.
Proof.
  intros Hi [Hch Hhd Hex Hun] Ht.
  destruct Ht as [g stk c vis k t Hall
                 |g g' stk c n vis k t Hadj Hn Hnv Hs' Hg'];
    simpl in *.
  - split; simpl; try done.
    + by apply chain_init in Hch.
    + intros Hne. destruct stk as [|a stk]; [done|].
      by apply Hhd.
  - assert (c ∈ vis) as Hc.
    { apply (inv_stack w h _ Hi). simpl. apply elem_of_snoc. by right. }
    set (s0 := Build_state g (stk ++ [c]) vis k t) in *.
    split; simpl.
    + apply (chain_snoc w h g' (stk ++ [c]) c n).
      * by rewrite last_snoc.
      * by apply (leaf_chain_old s0 c n g').
      * by apply (leaf_link s0 c n g').
    + intros _. rewrite <-Hhd by (by destruct stk).
      by destruct stk.
    + intros a b. by apply (leaf_exists s0 c n g').
    + intros a b l1 l2. by apply (leaf_unique s0 c n g').
Qed.

Lemma entry_route g0 :
  grid_set (grid (__init__ w h)) 1 1 PATH = Done g0 → route (entry g0).
Proof.
  intros Hset.
  destruct (grid_set_spec gw gh (grid (__init__ w h)) 1 1 PATH)
    as (g & Hset' & Hs & Hg); [apply init_shaped|unfold in_grid; simpl; lia|].
  rewrite Hset in Hset'. injection Hset' as <-.
  pose proof (entry_unlinked w h Hw Hh false g0 Hs Hg) as Hno.
  assert (∀ a b l, path w h g0 a b l → l = [a]) as Hone.
  { intros a b l (Hhd & _ & _ & Hch).
    destruct l as [|a' [|b' l]]; [done|by injection Hhd as ->|].
    destruct Hch as [Hl _]. by destruct (Hno a' b'). }
  split; simpl.
  - done.
  - done.
  - intros a b ->%elem_of_singleton ->%elem_of_singleton.
    exists [(1, 1)]. repeat split; try done. apply NoDup_singleton.
  - intros a b l1 l2 H1 H2. by rewrite (Hone a b l1), (Hone a b l2).
Qed.

Lemma reachable_route rnd s : reachable w h animate rnd s → route s.
Proof.
  induction 1 as [g0 Hset|s s' Hr IH Hne Hbody].
  - by apply entry_route.
  - pose proof (reachable_good w h Hw Hh animate rnd s Hr) as (Hi & _).
    destruct (loop_body_trans w h Hw Hh animate rnd s
                (inv_safe w h Hw Hh s Hi) Hne) as (s1 & Hbody' & Ht).
    rewrite Hbody in Hbody'. injection Hbody' as <-.
    by apply (trans_route s).
Qed.
End Route.

(** ** Walking the grid *)

Lemma beside_mid a b : adjacent a b → beside a (mid a b) ∧ beside (mid a b) b.
Proof.
  intros Hab. unfold beside.
  destruct (mid_cases a b Hab) as [[-> ->]|[[-> ->]|[[-> ->]|[-> ->]]]];
    simpl; lia.
Qed.

Lemma linked_walk w h g a b :
  open g a → open g b → linked w h g a b → rtc (walk g) a b.
Proof.
  intros Ha Hb (_ & _ & Hab & Hm). destruct (beside_mid a b Hab).
  assert (open g (mid a b)) as Ho by (split; by rewrite Hm).
  eapply rtc_l; [|by apply rtc_once]. done.
Qed.

Lemma rtc_linked_walk w h g a b :
  (∀ p, logical w h p → open g p) →
  rtc (linked w h g) a b → rtc (walk g) a b.
Proof.
  intros Ho. induction 1 as [|a b c Hab _ IH]; [done|].
  etrans; [|exact IH].
  apply (linked_walk w h); [apply Ho, Hab|apply Ho, Hab|done].
Qed.

Lemma path_rtc w h g a b l : path w h g a b l → rtc (linked w h g) a b.
Proof.
  intros (Hhd & Hl & _ & Hch).
  destruct l as [|a' l]; [done|]. injection Hhd as ->.
  revert a Hl Hch. induction l as [|x l IH]; intros a Hl Hch.
  - by injection Hl as ->.
  - destruct Hch as [Hax Hch]. eapply rtc_l; [done|]. by apply IH.
Qed.

(** The interior of the grid: everything but the outer ring. *)
Lemma logical_inside w h p :
  logical w h p → 1 ≤ p.1 ≤ w * 2 - 1 ∧ 1 ≤ p.2 ≤ h * 2 - 1.
Proof. intros (cx & cy & ? & ? & ->). simpl. lia. Qed.

Lemma mid_inside w h a b :
  logical w h a → logical w h b → adjacent a b →
  1 ≤ (mid a b).1 ≤ w * 2 - 1 ∧ 1 ≤ (mid a b).2 ≤ h * 2 - 1.
Proof.
  intros Ha Hb Hab.
  apply logical_inside in Ha, Hb.
  destruct (mid_cases a b Hab) as [[-> ->]|[[-> ->]|[[-> ->]|[-> ->]]]];
    simpl in *; lia.
Qed.

Lemma inv_border w h s p :
  inv w h s → border (w * 2 + 1) (h * 2 + 1) p →
  grid_get (st_grid s) p = Some WALL.
Proof.
  intros Hi [Hin Hb].
  destruct (shaped_get_is_Some _ _ _ p (inv_shape w h s Hi) Hin) as [c Hc].
  destruct (inv_vals w h s Hi p c Hc) as [->| ->]; [done|]. exfalso.
  destruct (inv_walls w h s Hi p Hc) as [Hl|(a & b & Ha & Hb' & Hab & ->)].
  - apply logical_inside in Hl. lia.
  - pose proof (mid_inside w h a b (inv_logical w h s Hi a Ha)
                  (inv_logical w h s Hi b Hb') Hab). lia.
Qed.

(** ** The finished maze *)

(** The state the loop ends in, and the grid [generate] makes of it. *)
Lemma generate_final w h animate rnd fuel m t :
  1 ≤ w → 1 ≤ h →
  generate fuel rnd (__init__ w h) animate = Done (m, t) →
  ∃ s, reachable w h animate rnd s ∧ st_stack s = [] ∧
       inv w h s ∧ tree w h s ∧ route w h s ∧
       (∀ p, logical w h p → p ∈ st_visited s) ∧
       grid_w m = w * 2 + 1 ∧ grid_h m = h * 2 + 1 ∧
       start m = (1, 1) ∧ end_ m = (w * 2 + 1 - 2, h * 2 + 1 - 2) ∧
       marked w h (st_grid s) (grid m).
Proof.
  intros Hw Hh Hgen.
  destruct (generate_inv w h Hw Hh animate rnd fuel m t Hgen)
    as (s & Hr & Hst & _ & Hm & Hmk).
  pose proof (reachable_good w h Hw Hh animate rnd s Hr) as (Hi & Ht & _).
  exists s. rewrite Hm. simpl.
  do 4 (split; [done|]).
  split; [by apply (reachable_route w h Hw Hh animate rnd)|].
  split; [intros p; by apply (all_visited w h Hw Hh)|]. done.
Qed.

Lemma marked_open w h s g2 p :
  1 ≤ w → 1 ≤ h → inv w h s → marked w h (st_grid s) g2 →
  open g2 p ↔
  p = (1, 1) ∨ p = (w * 2 + 1 - 2, h * 2 + 1 - 2) ∨
  grid_get (st_grid s) p = Some PATH.
Proof.
  intros Hw Hh Hi [_ Hmk]. unfold open. rewrite Hmk.
  repeat case_decide; subst.
  - split; [by auto|]. intros _. by split.
  - split; [by auto|]. intros _. by split.
  - split.
    + intros [[c Hc] Hn]. right. right.
      destruct (inv_vals w h s Hi p c Hc) as [->| ->]; done.
    + intros [?|[?|Hp]]; [done..|]. rewrite Hp. by split.
Qed.

Lemma marked_path w h g g2 a b l :
  1 ≤ w → 1 ≤ h → marked w h g g2 →
  path w h g2 a b l ↔ path w h g a b l.
Proof.
  intros Hw Hh Hmk. unfold path.
  assert (chain w h g2 l ↔ chain w h g l) as ->; [|done].
  split; apply (chain_mono w h Hw Hh); intros x y _ _;
    by apply (marked_linked w h Hw Hh g g2).
Qed.

(** X1. The finished maze is perfect: between any two of its cells
    there is one route along carved passages, and only one. *)
Theorem generate_one_route w h animate rnd fuel m t :
  1 ≤ w → 1 ≤ h →
  generate fuel rnd (__init__ w h) animate = Done (m, t) →
  ∀ a b, logical w h a → logical w h b →
    ∃ l, path w h (grid m) a b l ∧
         ∀ l', path w h (grid m) a b l' → l' = l.
Proof.
  intros Hw Hh Hgen a b Ha Hb.
  destruct (generate_final w h animate rnd fuel m t Hw Hh Hgen)
    as (s & _ & _ & Hi & _ & Hro & Hall & _ & _ & _ & _ & Hmk).
  destruct (route_exists w h s Hro a b (Hall a Ha) (Hall b Hb)) as (l & Hl).
  exists l. split; [by apply (marked_path w h (st_grid s))|].
  intros l' Hl'. apply (route_unique w h s Hro a b); [|done].
  by apply (marked_path w h (st_grid s) (grid m)).
Qed.

Lemma generate_one_route_witness :
  ∃ m t,
    generate 7 (λ k, k) (__init__ 2 2) false = Done (m, t) ∧
    ∀ a b, logical 2 2 a → logical 2 2 b →
      ∃ l, path 2 2 (grid m) a b l ∧
           ∀ l', path 2 2 (grid m) a b l' → l' = l.
Proof.
  assert (∃ m t, generate 7 (λ k, k) (__init__ 2 2) false = Done (m, t))
    as (m & t & Hgen) by (eexists _, _; vm_compute; reflexivity).
  exists m, t. split; [done|].
  apply (generate_one_route 2 2 false (λ k, k) 7 m t); [lia|lia|done].
Defined.

(** X2. While the loop runs, the stack is the carved route from the
    origin to the current cell, and the only such route; it never holds
    more than [width·height] cells. *)
Theorem stack_is_the_route w h animate rnd s :
  1 ≤ w → 1 ≤ h →
  reachable w h animate rnd s → st_stack s ≠ [] →
  ∃ c, last (st_stack s) = Some c ∧
       path w h (st_grid s) (1, 1) c (st_stack s) ∧
       (∀ l, path w h (st_grid s) (1, 1) c l → l = st_stack s) ∧
       (length (st_stack s) ≤ Z.to_nat (w * h))%nat.
Proof.
  intros Hw Hh Hr Hne.
  pose proof (reachable_good w h Hw Hh animate rnd s Hr) as (Hi & _).
  pose proof (reachable_route w h Hw Hh animate rnd s Hr) as Hro.
  destruct (last (st_stack s)) as [c|] eqn:Hc; [|by apply last_None in Hc].
  assert (path w h (st_grid s) (1, 1) c (st_stack s)) as Hp.
  { split; [by apply (route_head w h s Hro)|]. split; [done|].
    split; [apply (inv_nodup w h s Hi)|apply (route_chain w h s Hro)]. }
  exists c. split; [done|]. split; [done|]. split.
  - intros l Hl. by apply (route_unique w h s Hro (1, 1) c).
  - pose proof (visited_bound w h Hw Hh s Hi) as Hvb.
    rewrite <-(size_list_to_set (C := gset pos) (st_stack s))
      by apply (inv_nodup w h s Hi).
    etrans; [|exact Hvb]. apply subseteq_size.
    intros p Hp'%elem_of_list_to_set. by apply (inv_stack w h s Hi).
Qed.

Lemma stack_is_the_route_witness :
  ∃ g0 s1 s2,
    grid_set (grid (__init__ 2 2)) 1 1 PATH = Done g0 ∧
    loop_body 5 5 true (λ k, k) (entry g0) = Done s1 ∧
    loop_body 5 5 true (λ k, k) s1 = Done s2 ∧
    st_stack s2 = [(1, 1); (1, 3); (3, 3)] ∧
    passages 5 5 (st_grid s2) = 2%nat ∧
    ∃ c, last (st_stack s2) = Some c ∧
         path 2 2 (st_grid s2) (1, 1) c (st_stack s2) ∧
         (∀ l, path 2 2 (st_grid s2) (1, 1) c l → l = st_stack s2) ∧
         (length (st_stack s2) ≤ 4)%nat.
Proof.
  eexists _, _, _.
  split; [vm_compute; reflexivity|].
  split; [vm_compute; reflexivity|].
  split; [vm_compute; reflexivity|].
  split; [reflexivity|]. split; [by vm_compute|].
  apply (stack_is_the_route 2 2 true (λ k, k)); [lia|lia| |done].
  eapply reach_step;
    [eapply reach_step;
       [apply reach_entry; vm_compute; reflexivity
       |done
       |vm_compute; reflexivity]
    |done
    |vm_compute; reflexivity].
Defined.

(** X3. The finished maze can be walked: stepping between open
    positions next to each other, one gets from the start to the end,
    and from the start to every open position of the grid. *)
Theorem generate_solvable w h animate rnd fuel m t :
  1 ≤ w → 1 ≤ h →
  generate fuel rnd (__init__ w h) animate = Done (m, t) →
  grid_get (grid m) (end_ m) = Some END ∧
  rtc (walk (grid m)) (start m) (end_ m) ∧
  ∀ p, open (grid m) p → rtc (walk (grid m)) (start m) p.
Proof.
  intros Hw Hh Hgen.
  destruct (generate_final w h animate rnd fuel m t Hw Hh Hgen)
    as (s & _ & _ & Hi & Ht & _ & Hall & _ & _ & -> & -> & Hmk).
  assert (∀ p, logical w h p → open (grid m) p) as Hopen.
  { intros p Hp. apply (marked_open w h s); try done.
    right. right. apply (inv_open w h s Hi), Hall, Hp. }
  assert (∀ p, logical w h p → rtc (walk (grid m)) (1, 1) p) as Hcell.
  { intros p Hp. apply (rtc_linked_walk w h); [done|].
    eapply rtc_subrel; [|apply (tree_conn w h s Ht), Hall, Hp].
    intros x y Hxy. by apply (marked_linked w h Hw Hh (st_grid s)). }
  split; [|split].
  - destruct Hmk as [_ Hmk]. rewrite Hmk. by rewrite decide_True.
  - apply Hcell, (end_logical w h Hw Hh).
  - intros p Hp. pose proof Hp as Hp'.
    apply (marked_open w h s) in Hp' as [->|[->|Hpath]]; try done.
    + apply Hcell, (end_logical w h Hw Hh).
    + destruct (inv_walls w h s Hi p Hpath)
        as [Hl|(a & b & Ha & Hb & Hab & ->)]; [by apply Hcell|].
      eapply rtc_r; [apply (Hcell a), (inv_logical w h s Hi a Ha)|].
      split; [apply Hopen, (inv_logical w h s Hi a Ha)|]. split; [done|].
      by destruct (beside_mid a b Hab).
Qed.

Lemma generate_solvable_witness :
  ∃ m t,
    generate 17 (λ k, (3 * k)%nat) (__init__ 3 3) true = Done (m, t) ∧
    grid_get (grid m) (end_ m) = Some END ∧
    rtc (walk (grid m)) (start m) (end_ m) ∧
    ∀ p, open (grid m) p → rtc (walk (grid m)) (start m) p.
Proof.
  assert (∃ m t, generate 17 (λ k, (3 * k)%nat) (__init__ 3 3) true
                 = Done (m, t))
    as (m & t & Hgen) by (eexists _, _; vm_compute; reflexivity).
  exists m, t. split; [done|].
  apply (generate_solvable 3 3 true (λ k, (3 * k)%nat) 17 m t);
    [lia|lia|done].
Defined.

(** X4. The maze is closed in: all through the run and in the finished
    grid, every position of the outer ring of the grid is a wall. *)
Theorem generate_enclosed w h animate rnd :
  1 ≤ w → 1 ≤ h →
  (∀ s p, reachable w h animate rnd s →
          border (w * 2 + 1) (h * 2 + 1) p →
          grid_get (st_grid s) p = Some WALL) ∧
  (∀ fuel m t p,
     generate fuel rnd (__init__ w h) animate = Done (m, t) →
     border (grid_w m) (grid_h m) p → grid_get (grid m) p = Some WALL).
Proof.
  intros Hw Hh. split.
  - intros s p Hr. apply (inv_border w h s).
    apply (reachable_good w h Hw Hh animate rnd s Hr).
  - intros fuel m t p Hgen.
    destruct (generate_final w h animate rnd fuel m t Hw Hh Hgen)
      as (s & _ & _ & Hi & _ & _ & _ & -> & -> & _ & _ & _ & Hmk).
    intros Hb. rewrite Hmk.
    pose proof (logical_inside w h _ (end_logical w h Hw Hh)) as He.
    pose proof (logical_inside w h _ (origin_logical w h Hw Hh)) as Ho.
    assert (p ≠ (w * 2 + 1 - 2, h * 2 + 1 - 2)) as Hne.
    { intros ->. destruct Hb as [_ Hb]. simpl in *. lia. }
    assert (p ≠ (1, 1)) as Hno.
    { intros ->. destruct Hb as [_ Hb]. simpl in *. lia. }
    rewrite decide_False by done. rewrite decide_False by done.
    by apply (inv_border w h s).
Qed.

Lemma generate_enclosed_witness :
  (∀ s p, reachable 2 3 true (λ k, k) s → border 5 7 p →
          grid_get (st_grid s) p = Some WALL) ∧
  (∀ fuel m t p,
     generate fuel (λ k, k) (__init__ 2 3) true = Done (m, t) →
     border (grid_w m) (grid_h m) p → grid_get (grid m) p = Some WALL).
Proof. apply (generate_enclosed 2 3 true (λ k, k)); lia. Defined.

(** ** Counting the open positions *)

Lemma length_filter_or {A} (P Q : A → Prop)
    `{∀ x, Decision (P x)} `{∀ x, Decision (Q x)} (l : list A) :
  (∀ x, x ∈ l → ¬ (P x ∧ Q x)) →
  length (filter (λ x, P x ∨ Q x) l) =
  (length (filter P l) + length (filter Q l))%nat.
Proof.
  induction l as [|a l IH]; intros Hdis; [done|].
  rewrite !filter_cons.
  assert (¬ (P a ∧ Q a)) as Ha by (apply Hdis; by left).
  assert (length (filter (λ x, P x ∨ Q x) l) =
          (length (filter P l) + length (filter Q l))%nat) as IH'
    by (apply IH; intros x Hx; apply Hdis; by right).
  repeat case_decide; simpl; rewrite ?IH'; try lia; tauto.
Qed.

Lemma length_filter_cells w h :
  0 ≤ w → 0 ≤ h →
  length (filter (λ p, p ∈ cells w h) (positions (w * 2 + 1) (h * 2 + 1))) =
  Z.to_nat (w * h).
Proof.
  intros Hw Hh. rewrite <-(length_cells w h Hw Hh).
  apply Permutation_length, NoDup_Permutation.
  - apply NoDup_filter, NoDup_positions.
  - apply NoDup_cells.
  - intros p. rewrite list_elem_of_filter, elem_of_positions, elem_of_cells.
    split; [by intros [? _]|]. intros (cx & cy & ? & ? & ->).
    split; [by exists cx, cy|]. unfold in_grid. simpl. lia.
Qed.

(** X5. The finished grid of a [width × height] maze has
    [2·width·height − 1] open positions: its cells and the passages
    between them. *)
Theorem generate_open_count w h animate rnd fuel m t :
  1 ≤ w → 1 ≤ h →
  generate fuel rnd (__init__ w h) animate = Done (m, t) →
  length (filter (open (grid m)) (positions (grid_w m) (grid_h m))) =
  Z.to_nat (2 * w * h - 1).
Proof.
  intros Hw Hh Hgen.
  destruct (generate_final w h animate rnd fuel m t Hw Hh Hgen)
    as (s & _ & Hst & Hi & Ht & _ & Hall & -> & -> & _ & _ & Hmk).
  rewrite (length_filter_same _
             (λ p, p ∈ cells w h ∨ carved (st_grid s) p)).
  - rewrite length_filter_or.
    + rewrite length_filter_cells by lia.
      pose proof (tree_count w h s Ht) as Hc. unfold passages in Hc.
      rewrite (all_visited_size w h Hw Hh s Hi Hst) in Hc. nia.
    + intros p _ [Hp%elem_of_cells [Hslot _]].
      by apply (logical_not_slot w h p).
  - intros p _. rewrite (marked_open w h s) by done.
    rewrite elem_of_cells. split.
    + intros [->|[->|Hp]].
      * left. apply (origin_logical w h Hw Hh).
      * left. apply (end_logical w h Hw Hh).
      * destruct (inv_walls w h s Hi p Hp)
          as [Hl|(a & b & Ha & Hb & Hab & ->)]; [by left|].
        right. split; [|done].
        apply (mid_is_slot w h); [|done]. by apply (inv_logical w h s Hi).
    + intros [Hl|[_ Hp]]; right; right; [|done].
      apply (inv_open w h s Hi), Hall, Hl.
Qed.

Lemma generate_open_count_witness :
  ∃ m t,
    generate 7 (λ k, k) (__init__ 2 2) false = Done (m, t) ∧
    length (filter (open (grid m)) (positions (grid_w m) (grid_h m))) =
    Z.to_nat (2 * 2 * 2 - 1).
Proof.
  assert (∃ m t, generate 7 (λ k, k) (__init__ 2 2) false = Done (m, t))
    as (m & t & Hgen) by (eexists _, _; vm_compute; reflexivity).
  exists m, t. split; [done|].
  apply (generate_open_count 2 2 false (λ k, k) 7 m t); [lia|lia|done].
Defined.

(** ** Running [generate] on a grid that is not all walls *)

(** The loop never reads the grid: where it goes depends on the stack,
    the visited set and the random source alone. *)
Lemma loop_body_blind gw gh animate rnd s1 s2 s1' s2' :
  st_stack s1 = st_stack s2 → st_visited s1 = st_visited s2 →
  st_draws s1 = st_draws s2 →
  loop_body gw gh animate rnd s1 = Done s1' →
  loop_body gw gh animate rnd s2 = Done s2' →
  st_stack s1' = st_stack s2' ∧ st_visited s1' = st_visited s2' ∧
  st_draws s1' = st_draws s2'.
Proof.
  unfold loop_body. intros -> -> ->.
  destruct (last (st_stack s2)) as [[x y]|]; [|done].
  destruct (neighbors gw gh (st_visited s2) x y) as [|d ns].
  - by intros [= <-] [= <-].
  - destruct (choice rnd (st_draws s2) (d :: ns) d) as [[[nx ny] wx] wy].
    destruct (grid_set (st_grid s1) (x + wx) (y + wy) PATH) as [g1| |];
      simpl; try done.
    destruct (grid_set g1 nx ny PATH) as [g1'| |]; simpl; try done.
    destruct (grid_set (st_grid s2) (x + wx) (y + wy) PATH) as [g2| |];
      simpl; try done.
    destruct (grid_set g2 nx ny PATH) as [g2'| |]; simpl; try done.
    by intros [= <-] [= <-].
Qed.

Section Again.
Variables w h : Z.
Hypothesis Hw : 1 ≤ w.
Hypothesis Hh : 1 ≤ h.
Variable animate : bool.
Variable g0 : grid_t.
#[local] Set Default Proof Using "Hw Hh".

Local Abbreviation gw := (w * 2 + 1).
Local Abbreviation gh := (h * 2 + 1).

Lemma trans_shaped s s' :
  trans w h animate s s' → shaped gw gh (st_grid s) →
  shaped gw gh (st_grid s').
Proof. by destruct 1. Qed.

Lemma trans_over s1 s1' s2 s2' :
  trans w h animate s1 s1' → trans w h animate s2 s2' →
  st_stack s1 = st_stack s2 → st_stack s1' = st_stack s2' →
  over g0 (st_grid s1) (st_grid s2) →
  over g0 (st_grid s1') (st_grid s2').
Proof.
  intros H1 H2.
  destruct H1 as [g1 stk1 c1 vis1 k1 t1 _
                 |g1 g1' stk1 c1 n1 vis1 k1 t1 _ _ _ _ Hg1];
    destruct H2 as [g2 stk2 c2 vis2 k2 t2 _
                   |g2 g2' stk2 c2 n2 vis2 k2 t2 _ _ _ _ Hg2];
    simpl; intros Hs Hs' Hov.
  - done.
  - exfalso. apply (f_equal length) in Hs, Hs'.
    rewrite !length_app in *. simpl in *. lia.
  - exfalso. apply (f_equal length) in Hs, Hs'.
    rewrite !length_app in *. simpl in *. lia.
  - apply app_inj_tail in Hs' as [_ ->].
    apply app_inj_tail in Hs as [_ ->].
    intros q. rewrite Hg2, Hg1. case_decide; [done|]. apply Hov.
Qed.

Lemma loop_over rnd fuel s1 s2 s1' :
  good w h animate s1 → shaped gw gh (st_grid s2) →
  st_stack s1 = st_stack s2 → st_visited s1 = st_visited s2 →
  st_draws s1 = st_draws s2 →
  over g0 (st_grid s1) (st_grid s2) →
  loop gw gh animate rnd fuel s1 = Done s1' →
  ∃ s2', loop gw gh animate rnd fuel s2 = Done s2' ∧
         shaped gw gh (st_grid s2') ∧
         over g0 (st_grid s1') (st_grid s2').
Proof.
  revert s1 s2. induction fuel as [|fuel IH];
    intros s1 s2 Hg Hsh Hst Hvi Hdr Hov; simpl; rewrite <-Hst.
  - destruct (st_stack s1); [|done]. intros [= <-]. by exists s2.
  - destruct (st_stack s1) as [|p stk] eqn:Hstk.
    { intros [= <-]. by exists s2. }
    rewrite <-Hstk in Hst.
    assert (st_stack s1 ≠ []) as Hne by (by rewrite Hstk).
    pose proof (inv_safe w h Hw Hh s1 (proj1 Hg)) as Hsafe.
    destruct (loop_body_trans w h Hw Hh animate rnd s1 Hsafe Hne)
      as (s1'' & Hb1 & Ht1).
    destruct (loop_body_trans w h Hw Hh animate rnd s2) as (s2'' & Hb2 & Ht2).
    { split; [done|]. rewrite <-Hst. apply (proj2 Hsafe). }
    { by rewrite <-Hst. }
    rewrite Hb1, Hb2. simpl.
    destruct (loop_body_blind gw gh animate rnd s1 s2 s1'' s2'')
      as (Hst' & Hvi' & Hdr'); try done.
    apply IH; try done.
    + by apply (trans_good w h Hw Hh animate s1).
    + by apply (trans_shaped s2).
    + by apply (trans_over s1 s1'' s2 s2'').
Qed.
End Again.

(** X6. [generate] only opens: run on a maze whose grid is not all
    walls, an earlier result for one, it goes the way it goes on a new
    maze and leaves a grid that has the positions of that run open and
    every other position as it found it. *)
Theorem generate_again w h animate rnd fuel m0 m t :
  1 ≤ w → 1 ≤ h →
  grid_w m0 = w * 2 + 1 → grid_h m0 = h * 2 + 1 →
  shaped (w * 2 + 1) (h * 2 + 1) (grid m0) →
  generate fuel rnd (__init__ w h) animate = Done (m, t) →
  ∃ m' t',
    generate fuel rnd m0 animate = Done (m', t') ∧
    ∀ q, grid_get (grid m') q =
         if decide (grid_get (grid m) q = Some WALL)
         then grid_get (grid m0) q else grid_get (grid m) q.
Proof.
  intros Hw Hh Hgw Hgh Hsh Hgen. unfold generate in *.
  rewrite Hgw, Hgh.
  change (grid_w (__init__ w h)) with (w * 2 + 1) in Hgen.
  change (grid_h (__init__ w h)) with (h * 2 + 1) in Hgen.
  assert (in_grid (w * 2 + 1) (h * 2 + 1) (1, 1)) as Hin1
    by (unfold in_grid; simpl; lia).
  assert (in_grid (w * 2 + 1) (h * 2 + 1) (w * 2 + 1 - 2, h * 2 + 1 - 2))
    as Hin2 by (unfold in_grid; simpl; lia).
  destruct (entry_set w h Hw Hh animate) as (gf & Hsetf & Hgf).
  rewrite Hsetf in Hgen. cbn [mbind outcome_bind] in Hgen.
  destruct (grid_set_spec _ _ (grid (__init__ w h)) 1 1 PATH
              (init_shaped w h) Hin1) as (gf' & Hsetf' & _ & Hgetf).
  rewrite Hsetf in Hsetf'. injection Hsetf' as <-.
  destruct (grid_set_spec _ _ (grid m0) 1 1 PATH Hsh Hin1)
    as (ga & -> & Hsa & Hgeta).
  simpl.
  destruct (loop (w * 2 + 1) (h * 2 + 1) animate rnd fuel (entry gf))
    as [sf| |] eqn:Hloop; cbn [mbind outcome_bind] in Hgen; try done.
  destruct (loop_over w h Hw Hh animate (grid m0) rnd fuel
              (entry gf) (entry ga) sf) as (sa & -> & Hsa' & Hov); try done.
  { intros q. simpl. rewrite Hgeta, Hgetf. case_decide; [done|].
    destruct (grid_get (grid (__init__ w h)) q) as [c|] eqn:Hq.
    - apply init_get in Hq as ->. by rewrite decide_True.
    - rewrite decide_False by done.
      destruct (grid_get (grid m0) q) as [c|] eqn:Hq0; [|done].
      apply (shaped_get_Some _ _ _ _ _ Hsh) in Hq0.
      by destruct (shaped_get_is_Some _ _ _ q (init_shaped w h) Hq0)
        as [c' Hc']; rewrite Hc' in Hq. }
  destruct (loop_reachable w h Hw Hh animate rnd fuel (entry gf) sf
              (reach_entry w h animate rnd gf Hsetf) Hloop) as [Hr _].
  pose proof (reachable_good w h Hw Hh animate rnd sf Hr) as (Hi & _).
  pose proof (inv_shape w h sf Hi) as Hsf.
  destruct (grid_set_spec _ _ (st_grid sf) 1 1 START Hsf Hin1)
    as (f1 & Hf1 & Hsf1 & Hgf1).
  destruct (grid_set_spec _ _ f1 _ _ END Hsf1 Hin2)
    as (f2 & Hf2 & Hsf2 & Hgf2).
  rewrite Hf1 in Hgen. cbn [mbind outcome_bind] in Hgen.
  rewrite Hf2 in Hgen. cbn [mbind outcome_bind] in Hgen.
  injection Hgen as <- <-.
  destruct (grid_set_spec _ _ (st_grid sa) 1 1 START Hsa' Hin1)
    as (a1 & Ha1 & Hsa1 & Hga1).
  destruct (grid_set_spec _ _ a1 _ _ END Hsa1 Hin2)
    as (a2 & Ha2 & Hsa2 & Hga2).
  cbn [mbind outcome_bind]. rewrite Ha1. cbn [mbind outcome_bind].
  rewrite Ha2. cbn [mbind outcome_bind].
  eexists _, _. split; [done|]. cbn [grid].
  intros q. rewrite Hga2, Hgf2, Hga1, Hgf1.
  repeat case_decide; try done; rewrite (Hov q);
    [by rewrite decide_True|by rewrite decide_False].
Qed.

Lemma generate_again_witness :
  let m0 := {| width := 2; height := 1; grid_w := 5; grid_h := 3;
               grid := [[WALL; WALL; WALL; WALL; WALL];
                        [WALL; START; WALL; END; WALL];
                        [WALL; WALL; WALL; WALL; WALL]];
               start := (1, 1); end_ := (3, 1) |} in
  ∃ m t m' t',
    generate 3 (λ k, k) (__init__ 2 1) false = Done (m, t) ∧
    generate 3 (λ k, k) m0 false = Done (m', t') ∧
    ∀ q, grid_get (grid m') q =
         if decide (grid_get (grid m) q = Some WALL)
         then grid_get (grid m0) q else grid_get (grid m) q.
Proof.
  intros m0.
  assert (∃ m t, generate 3 (λ k, k) (__init__ 2 1) false = Done (m, t))
    as (m & t & Hgen) by (eexists _, _; vm_compute; reflexivity).
  destruct (generate_again 2 1 false (λ k, k) 3 m0 m t)
    as (m' & t' & Hgen' & Hov); [lia|lia|done|done| |done|].
  { split; [done|]. repeat constructor. }
  by exists m, t, m', t'.
Defined.

(** ** Animation *)

Lemma loop_body_hush gw gh rnd s :
  loop_body gw gh false rnd (hush s) =
  s' ← loop_body gw gh true rnd s; Done (hush s').
Proof.
  unfold loop_body. simpl.
  destruct (last (st_stack s)) as [[x y]|]; [|done].
  destruct (neighbors gw gh (st_visited s) x y) as [|d ns]; simpl.
  - unfold hush, quiet. simpl. by rewrite filter_app.
  - destruct (choice rnd (st_draws s) (d :: ns) d) as [[[nx ny] wx] wy].
    destruct (grid_set (st_grid s) (x + wx) (y + wy) PATH) as [g1| |];
      simpl; try done.
    destruct (grid_set g1 nx ny PATH) as [g2| |]; simpl; try done.
    unfold hush, quiet. simpl. by rewrite filter_app.
Qed.

Lemma loop_hush gw gh rnd fuel s :
  loop gw gh false rnd fuel (hush s) =
  s' ← loop gw gh true rnd fuel s; Done (hush s').
Proof.
  revert s. induction fuel as [|fuel IH]; intros s; simpl.
  - by destruct (st_stack s).
  - destruct (st_stack s) eqn:Hst; [done|].
    rewrite loop_body_hush.
    destruct (loop_body gw gh true rnd s) as [s1| |]; simpl; [|done..].
    apply IH.
Qed.

(** X7. The [animate] flag changes what is shown and nothing else:
    with it and without it, [generate] ends the same way, in the same
    maze, after the same steps. *)
Theorem animate_only_shows fuel rnd m :
  generate fuel rnd m false =
  '(m', t) ← generate fuel rnd m true; Done (m', quiet t).
Proof.
  unfold generate.
  destruct (grid_set (grid m) 1 1 PATH) as [g0| |]; simpl; try done.
  change (entry g0) with (hush (entry g0)) at 1.
  rewrite loop_hush.
  destruct (loop (grid_w m) (grid_h m) true rnd fuel (entry g0))
    as [s| |]; simpl; try done.
  destruct (grid_set (st_grid s) 1 1 START) as [g1| |]; simpl; try done.
  destruct (grid_set g1 (grid_w m - 2) (grid_h m - 2) END) as [g2| |];
    simpl; try done.
  unfold quiet. rewrite filter_app. done.
Qed.

(** ** The start cell *)

Section Origin.
Variables w h : Z.
Hypothesis Hw : 1 ≤ w.
Hypothesis Hh : 1 ≤ h.
Variable animate : bool.
#[local] Set Default Proof Using "Hw Hh".

(** At most one passage leaves the origin. *)
Definition lone (s : state) : Prop :=
  ∀ x y, linked w h (st_grid s) (1, 1) x →
         linked w h (st_grid s) (1, 1) y → x = y.

Lemma origin_neighbours x :
  logical w h x → adjacent (1, 1) x → x = (3, 1) ∨ x = (1, 3).
Proof.
  intros (cx & cy & ? & ? & ->) Hadj.
  apply adjacent_cases in Hadj. simpl in Hadj.
  destruct Hadj as [[=]|[[=]|[[=]|[=]]]];
    (try lia); [right|left]; f_equal; lia.
Qed.

(** Once the loop is back at the origin from a first neighbour, the
    other neighbour has been visited by way of the cell between the
    two. *)
Lemma origin_closed s x n :
  inv w h s → st_stack s = [(1, 1)] →
  linked w h (st_grid s) (1, 1) x →
  adjacent (1, 1) n → logical w h n → n ∈ st_visited s.
Proof.
  intros Hi Hst Hx Hadj Hn.
  destruct (linked_visited w h Hw Hh s _ _ Hi Hx) as [_ Hxv].
  destruct Hx as (_ & Hxl & Hxa & _).
  assert (∀ p, p ≠ (1, 1) → p ∉ st_stack s) as Hoff.
  { intros p Hp. rewrite Hst. by intros ->%list_elem_of_singleton. }
  assert (logical w h (3, 3) → (3, 3) ∈ st_visited s) as Hmid.
  { intros H33. apply (inv_closed w h s Hi x (3, 3)); try done.
    - apply Hoff. by destruct (origin_neighbours x Hxl Hxa) as [-> | ->].
    - apply adjacent_cases.
      destruct (origin_neighbours x Hxl Hxa) as [-> | ->]; simpl; auto. }
  destruct (origin_neighbours x Hxl Hxa) as [-> | ->],
    (origin_neighbours n Hn Hadj) as [-> | ->]; try done.
  - apply (inv_closed w h s Hi (3, 3) (1, 3)); try done.
    + apply Hmid. destruct Hxl as (cx & cy & ? & ? & [=]),
        Hn as (cx' & cy' & ? & ? & [=]).
      exists 1, 1. repeat split; lia.
    + by apply Hoff.
    + apply adjacent_cases. simpl. auto.
  - apply (inv_closed w h s Hi (3, 3) (3, 1)); try done.
    + apply Hmid. destruct Hxl as (cx & cy & ? & ? & [=]),
        Hn as (cx' & cy' & ? & ? & [=]).
      exists 1, 1. repeat split; lia.
    + by apply Hoff.
    + apply adjacent_cases. simpl. auto.
Qed.

Lemma trans_lone s s' :
  inv w h s → route w h s → lone s → trans w h animate s s' → lone s'.
Proof.
  intros Hi Hro Hlone Ht.
  destruct Ht as [g stk c vis k t Hall
                 |g g' stk c n vis k t Hadj Hn Hnv Hs' Hg'];
    [done|].
  assert (c ∈ vis) as Hc.
  { apply (inv_stack w h _ Hi). simpl. apply elem_of_snoc. by right. }
  set (s0 := Build_state g (stk ++ [c]) vis k t) in *.
  assert ((1, 1) ≠ n) as Hno.
  { intros <-. apply Hnv, (inv_origin w h s0 Hi). }
  assert (∀ x, linked w h g (1, 1) x → c ≠ (1, 1)) as Hfirst.
  { intros x Hx ->. apply Hnv.
    apply (origin_closed s0 x n); try done. simpl.
    pose proof (route_head w h s0 Hro) as Hhd. simpl in Hhd.
    pose proof (inv_nodup w h s0 Hi) as Hnd. simpl in Hnd.
    destruct stk as [|a stk]; [done|]. exfalso.
    injection (Hhd ltac:(done)) as ->.
    apply NoDup_cons in Hnd as [Hnd _]. apply Hnd, elem_of_app.
    right. by left. }
  intros x y Hx Hy. unfold lone in Hlone. simpl in *.
  apply (visit_linked w h Hw Hh animate s0 c n g' Hi Hc Hadj Hn Hnv Hg')
    in Hx as [Hx|[[Hxc ->]|[? _]]]; [| |done];
  apply (visit_linked w h Hw Hh animate s0 c n g' Hi Hc Hadj Hn Hnv Hg')
    in Hy as [Hy|[[Hyc ->]|[? _]]]; try done.
  - by apply Hlone.
  - by destruct (Hfirst x Hx).
  - by destruct (Hfirst y Hy).
Qed.

Lemma reachable_lone rnd s : reachable w h animate rnd s → lone s.
Proof.
  induction 1 as [g0 Hset|s s' Hr IH Hne Hbody].
  - destruct (grid_set_spec (w * 2 + 1) (h * 2 + 1)
                (grid (__init__ w h)) 1 1 PATH)
      as (g & Hset' & Hs & Hg);
      [apply init_shaped|unfold in_grid; simpl; lia|].
    rewrite Hset in Hset'. injection Hset' as <-.
    intros x y Hx.
    by destruct (entry_unlinked w h Hw Hh false g0 Hs Hg _ _ Hx).
  - pose proof (reachable_good w h Hw Hh animate rnd s Hr) as (Hi & _).
    destruct (loop_body_trans w h Hw Hh animate rnd s
                (inv_safe w h Hw Hh s Hi) Hne) as (s1 & Hbody' & Ht).
    rewrite Hbody in Hbody'. injection Hbody' as <-.
    apply (trans_lone s); try done.
    by apply (reachable_route w h Hw Hh animate rnd).
Qed.
End Origin.

(** X12. In a finished maze of more than one cell the start cell is a
    dead end: exactly one passage leaves it. *)
Theorem start_is_dead_end w h animate rnd fuel m t :
  1 ≤ w → 1 ≤ h → 2 ≤ w * h →
  generate fuel rnd (__init__ w h) animate = Done (m, t) →
  ∃ x, linked w h (grid m) (start m) x ∧
       ∀ y, linked w h (grid m) (start m) y → y = x.
Proof.
  intros Hw Hh Hwh Hgen.
  destruct (generate_final w h animate rnd fuel m t Hw Hh Hgen)
    as (s & Hr & _ & Hi & Ht & _ & Hall & _ & _ & -> & _ & Hmk).
  pose proof (reachable_lone w h Hw Hh animate rnd s Hr) as Hlone.
  assert (∃ p, logical w h p ∧ p ≠ (1, 1)) as (p & Hp & Hne).
  { destruct (decide (2 ≤ w)).
    - exists (3, 1). split; [|done]. exists 1, 0. repeat split; lia.
    - exists (1, 3). split; [|done]. exists 0, 1. repeat split; nia. }
  pose proof (tree_conn w h s Ht p (Hall p Hp)) as Hconn.
  apply rtc_inv in Hconn as [?|(x & Hx & _)]; [done|].
  exists x. split; [by apply (marked_linked w h Hw Hh (st_grid s))|].
  intros y Hy. apply (marked_linked w h Hw Hh (st_grid s)) in Hy; [|done].
  by apply Hlone.
Qed.

Lemma start_is_dead_end_witness :
  ∃ m t,
    generate 17 (λ k, (3 * k)%nat) (__init__ 3 3) false = Done (m, t) ∧
    ∃ x, linked 3 3 (grid m) (start m) x ∧
         ∀ y, linked 3 3 (grid m) (start m) y → y = x.
Proof.
  assert (∃ m t, generate 17 (λ k, (3 * k)%nat) (__init__ 3 3) false
                 = Done (m, t))
    as (m & t & Hgen) by (eexists _, _; vm_compute; reflexivity).
  exists m, t. split; [done|].
  apply (start_is_dead_end 3 3 false (λ k, (3 * k)%nat) 17 m t);
    [lia|lia|lia|done].
Defined.

(** ** Mazes of one row or one column *)

(** A chain of steps from inside a set to outside of it has a step
    that leaves the set. *)
Lemma rtc_crossing {A} (R : relation A) (P : A → Prop)
    `{∀ x, Decision (P x)} a b :
  rtc R a b → P a → ¬ P b → ∃ x y, R x y ∧ P x ∧ ¬ P y.
Proof.
  induction 1 as [|a b c Hab _ IH]; [done|]. intros Ha Hc.
  destruct (decide (P b)) as [Hb|Hb]; [by apply IH|].
  by exists a, b.
Qed.

Lemma corridor_down w h g a :
  w = 1 → logical w h a → logical w h (a.1, a.2 + 2) →
  rtc (linked w h g) (1, 1) (a.1, a.2 + 2) →
  linked w h g a (a.1, a.2 + 2).
Proof.
  intros -> Ha Hb Hconn.
  destruct (rtc_crossing _ (λ p, p.2 ≤ a.2) _ _ Hconn)
    as (x & y & Hxy & Hx & Hy).
  { destruct Ha as (cx & cy & ? & ? & ->). simpl. lia. }
  { simpl. lia. }
  assert (x = a ∧ y = (a.1, a.2 + 2)) as [-> ->]; [|done].
  destruct Hxy as (Hxl & Hyl & Hadj & _).
  destruct Ha as (cx & cy & ? & ? & ->), Hxl as (cx' & cy' & ? & ? & ->).
  apply adjacent_cases in Hadj. simpl in *.
  destruct Hadj as [-> | [-> | [-> | ->]]]; simpl in *;
    try lia; split; f_equal; lia.
Qed.

Lemma corridor_right w h g a :
  h = 1 → logical w h a → logical w h (a.1 + 2, a.2) →
  rtc (linked w h g) (1, 1) (a.1 + 2, a.2) →
  linked w h g a (a.1 + 2, a.2).
Proof.
  intros -> Ha Hb Hconn.
  destruct (rtc_crossing _ (λ p, p.1 ≤ a.1) _ _ Hconn)
    as (x & y & Hxy & Hx & Hy).
  { destruct Ha as (cx & cy & ? & ? & ->). simpl. lia. }
  { simpl. lia. }
  assert (x = a ∧ y = (a.1 + 2, a.2)) as [-> ->]; [|done].
  destruct Hxy as (Hxl & Hyl & Hadj & _).
  destruct Ha as (cx & cy & ? & ? & ->), Hxl as (cx' & cy' & ? & ? & ->).
  apply adjacent_cases in Hadj. simpl in *.
  destruct Hadj as [-> | [-> | [-> | ->]]]; simpl in *;
    try lia; split; f_equal; lia.
Qed.

(** X13. A maze of one row or of one column is one straight corridor,
    whatever the random source: every wall between two neighbouring
    cells is opened. *)
Theorem generate_corridor w h animate rnd fuel m t :
  1 ≤ w → 1 ≤ h → w = 1 ∨ h = 1 →
  generate fuel rnd (__init__ w h) animate = Done (m, t) →
  ∀ a b, logical w h a → logical w h b → adjacent a b →
         linked w h (grid m) a b.
Proof.
  intros Hw Hh Hone Hgen.
  destruct (generate_final w h animate rnd fuel m t Hw Hh Hgen)
    as (s & _ & _ & Hi & Ht & _ & Hall & _ & _ & _ & _ & Hmk).
  assert (∀ p, logical w h p → rtc (linked w h (grid m)) (1, 1) p) as Hconn.
  { intros p Hp.
    eapply rtc_subrel; [|apply (tree_conn w h s Ht), Hall, Hp].
    intros x y Hxy. by apply (marked_linked w h Hw Hh (st_grid s)). }
  assert (∀ a b, logical w h a → logical w h b →
                 b = (a.1, a.2 + 2) ∨ b = (a.1 + 2, a.2) →
                 linked w h (grid m) a b) as Hfwd.
  { intros a b Ha Hb [-> | ->].
    - destruct Hone as [-> | ->].
      + apply corridor_down; auto.
      + exfalso. destruct Ha as (cx & cy & ? & ? & ->),
          Hb as (cx' & cy' & ? & ? & [=]). lia.
    - destruct Hone as [-> | ->].
      + exfalso. destruct Ha as (cx & cy & ? & ? & ->),
          Hb as (cx' & cy' & ? & ? & [=]). lia.
      + apply corridor_right; auto. }
  intros a b Ha Hb Hadj. apply adjacent_cases in Hadj.
  destruct Hadj as [Hab | [Hab | [Hab | Hab]]].
  - apply (linked_sym w h Hw Hh), Hfwd; try done.
    left. rewrite Hab. destruct a. simpl. f_equal; lia.
  - apply Hfwd; auto.
  - apply (linked_sym w h Hw Hh), Hfwd; try done.
    right. rewrite Hab. destruct a. simpl. f_equal; lia.
  - apply Hfwd; auto.
Qed.

Lemma generate_corridor_witness :
  ∃ m t,
    generate 7 (λ k, (5 * k)%nat) (__init__ 1 4) true = Done (m, t) ∧
    ∀ a b, logical 1 4 a → logical 1 4 b → adjacent a b →
           linked 1 4 (grid m) a b.
Proof.
  assert (∃ m t, generate 7 (λ k, (5 * k)%nat) (__init__ 1 4) true
                 = Done (m, t))
    as (m & t & Hgen) by (eexists _, _; vm_compute; reflexivity).
  exists m, t. split; [done|].
  apply (generate_corridor 1 4 true (λ k, (5 * k)%nat) 7 m t);
    [lia|lia|by left|done].
Defined.

(** * What the program shows *)

Lemma plain_cell c out :
  plain_from Text (display_cell c +:+ out) =
  cell_char c +:+ plain_from Text out.
Proof. destruct c; vm_compute display_cell; reflexivity. Qed.

Lemma plain_row row out :
  plain_from Text
    (foldr (λ c out, display_cell c +:+ out) (NL +:+ out) row) =
  foldr (λ c out, cell_char c +:+ out) (NL +:+ plain_from Text out) row.
Proof.
  induction row as [|c row IH]; [done|].
  cbn [foldr]. by rewrite plain_cell, IH.
Qed.

Lemma plain_display g : plain (display g) = lines g.
Proof.
  unfold plain, display, lines.
  change (plain_from Text ((ESC +:+ "[H") +:+ ?s)) with (plain_from Text s).
  induction g as [|row g IH]; [by vm_compute|].
  cbn [foldr]. by rewrite plain_row, IH.
Qed.

Lemma grid_of_lines_row row acc out :
  grid_of_lines (foldr (λ c out, cell_char c +:+ out) (NL +:+ out) row) acc =
  ((acc ++ row) ::.) <$> grid_of_lines out [].
Proof.
  revert acc. induction row as [|c row IH]; intros acc.
  - by rewrite app_nil_r.
  - replace (acc ++ c :: row) with ((acc ++ [c]) ++ row)
      by (by rewrite <-app_assoc).
    rewrite <-IH. by destruct c.
Qed.

Lemma grid_of_lines_lines g : grid_of_lines (lines g) [] = Some g.
Proof.
  induction g as [|row g IH]; [done|]. unfold lines. simpl.
  rewrite grid_of_lines_row. fold (lines g). by rewrite IH.
Qed.

(** X8. With the colour codes taken out, what [display] writes is the
    grid as lines of characters, one line for each row; the grid can be
    read back from it, so that no two grids are displayed alike. *)
Theorem display_faithful g :
  plain (display g) = lines g ∧
  grid_of_lines (plain (display g)) [] = Some g ∧
  ∀ g', display g' = display g → g' = g.
Proof.
  split; [apply plain_display|].
  split; [by rewrite plain_display, grid_of_lines_lines|].
  intros g' Heq. apply (f_equal (λ s, grid_of_lines (plain s) [])) in Heq.
  rewrite !plain_display, !grid_of_lines_lines in Heq. by injection Heq.
Qed.

Lemma maze_size COLS ROWS :
  (COLS - 1 ≤ MAZE_WIDTH COLS * 2 + 1 ≤ COLS) ∧
  (ROWS - 2 ≤ MAZE_HEIGHT ROWS * 2 + 1 ≤ ROWS - 1) ∧
  (1 ≤ MAZE_WIDTH COLS ↔ 3 ≤ COLS) ∧
  (1 ≤ MAZE_HEIGHT ROWS ↔ 4 ≤ ROWS).
Proof. unfold MAZE_WIDTH, MAZE_HEIGHT. Z.div_mod_to_equations. lia. Qed.

(** X9. The maze [main] builds takes up the terminal and no more: its
    grid is one or no column narrower than the terminal and one or two
    rows lower, and it has a cell at all only from 3 columns and 4 rows
    on. *)
Theorem maze_fits_terminal COLS ROWS :
  let m := __init__ (MAZE_WIDTH COLS) (MAZE_HEIGHT ROWS) in
  shaped (grid_w m) (grid_h m) (grid m) ∧
  COLS - 1 ≤ grid_w m ≤ COLS ∧
  ROWS - 2 ≤ grid_h m ≤ ROWS - 1 ∧
  (1 ≤ width m ↔ 3 ≤ COLS) ∧
  (1 ≤ height m ↔ 4 ≤ ROWS).
Proof.
  intros m. split; [apply init_shaped|].
  destruct (maze_size COLS ROWS) as (? & ? & ? & ?). done.
Qed.

(** X10. On a terminal of less than 3 columns or less than 4 rows
    [main] fails with [IndexError]: it clears the screen, [generate]
    raises at its first grid write, the [finally] clause shows the
    cursor again, and the error goes on to the caller. *)
Theorem main_small_terminal COLS ROWS rnd fuel ctrl_c :
  COLS < 3 ∨ ROWS < 4 →
  main (Some (COLS, ROWS)) rnd fuel ctrl_c =
    (Raise IndexError, opening ++ closing).
Proof.
  intros Hsmall. unfold main. simpl.
  rewrite generate_raises_nonpositive; [done|].
  destruct (maze_size COLS ROWS) as (_ & _ & ? & ?). lia.
Qed.

Lemma main_small_terminal_witness :
  main (Some (2, 24)) (λ k, k) 100 (Some 3%nat) =
    (Raise IndexError, opening ++ closing).
Proof. apply (main_small_terminal 2 24). lia. Defined.

(** ** The frames of the animation *)

Lemma snapshots_app t1 t2 :
  snapshots (t1 ++ t2) = snapshots t1 ++ snapshots t2.
Proof. apply omap_app. Qed.

(** What a step shows is a frame for each of its snapshots. *)
Lemma block_frames b :
  step_block true b → b ≫= io_of_event = snapshots b ≫= frame.
Proof. by intros [(c & ->)|(x & y & n & g & ->)]. Qed.

Lemma blocks_frames blocks :
  Forall (step_block true) blocks →
  concat blocks ≫= io_of_event = snapshots (concat blocks) ≫= frame.
Proof.
  induction 1 as [|b blocks Hb _ IH]; [done|]. simpl.
  by rewrite snapshots_app, !bind_app, IH, (block_frames b Hb).
Qed.

Section Frames.
Variables w h : Z.
Hypothesis Hw : 1 ≤ w.
Hypothesis Hh : 1 ≤ h.
#[local] Set Default Proof Using "Hw Hh".

(** With animation, the run has shown a grid for each draw made, each
    of the size of the grid. *)
Definition framed (s : state) : Prop :=
  Forall (shaped (w * 2 + 1) (h * 2 + 1)) (snapshots (st_trace s)) ∧
  length (snapshots (st_trace s)) = st_draws s.

Lemma trans_framed s s' : framed s → trans w h true s s' → framed s'.
Proof.
  intros (Hsh & Hlen) Ht.
  destruct Ht as [g stk c vis k t Hall
                 |g g' stk c n vis k t Hadj Hn Hnv Hs' Hg'];
    unfold framed; cbn [st_trace st_draws] in *;
    rewrite snapshots_app.
  - simpl. by rewrite app_nil_r.
  - change (snapshots (visit_events true c n g')) with [g']. split.
    + apply Forall_app. split; [done|]. by apply Forall_singleton.
    + rewrite length_app. simpl. lia.
Qed.

Lemma reachable_framed rnd s : reachable w h true rnd s → framed s.
Proof.
  induction 1 as [g0 Hset|s s' Hr IH Hne Hbody].
  - by split.
  - pose proof (reachable_good w h Hw Hh true rnd s Hr) as (Hi & _).
    destruct (loop_body_trans w h Hw Hh true rnd s
                (inv_safe w h Hw Hh s Hi) Hne) as (s1 & Hbody' & Ht).
    rewrite Hbody in Hbody'. injection Hbody' as <-.
    by apply (trans_framed s).
Qed.
End Frames.

(** X11. On a terminal of at least 3 columns and 4 rows, and when the
    size of the terminal cannot be read, [main] does not fail.
    [generate] returns; what [main] shows is, after the opening
    sequence, a frame for each snapshot of that run, in order and with
    a pause of 20 ms after each, one for each cell but the first, then
    the grid of the maze [generate] returned and the closing line.
    Every grid shown has the size of that maze, within the size of the
    terminal.  Then [main] waits; it comes back only on Ctrl+C, and then
    normally, the cursor shown again. *)
Theorem main_session probe COLS ROWS rnd fuel :
  terminal_size probe = (COLS, ROWS) → 3 ≤ COLS → 4 ≤ ROWS →
  (2 * Z.to_nat (MAZE_WIDTH COLS * MAZE_HEIGHT ROWS) - 1 ≤ fuel)%nat →
  ∃ maze t,
    generate fuel rnd (__init__ (MAZE_WIDTH COLS) (MAZE_HEIGHT ROWS)) true =
      Done (maze, t) ∧
    grid_w maze ≤ COLS ∧ grid_h maze ≤ ROWS - 1 ∧
    Forall (shaped (grid_w maze) (grid_h maze))
           (snapshots t ++ [grid maze]) ∧
    length (snapshots t) =
      (Z.to_nat (MAZE_WIDTH COLS * MAZE_HEIGHT ROWS) - 1)%nat ∧
    let shown :=
      opening ++ (snapshots t ≫= frame) ++
      [Stdout (display (grid maze)); Flush; generated] in
    main probe rnd fuel None =
      (OutOfFuel, shown ++ replicate fuel (Pause 1000)) ∧
    ∀ k, (k < fuel)%nat →
      main probe rnd fuel (Some k) =
        (Done (), shown ++ replicate k (Pause 1000) ++ closing).
Proof.
  intros Hts HC HR Hfuel.
  destruct (maze_size COLS ROWS) as (HW & HH & Hw & Hh).
  apply Hw in HC. apply Hh in HR.
  set (w := MAZE_WIDTH COLS) in *. set (h := MAZE_HEIGHT ROWS) in *.
  destruct (generate_total w h HC HR true rnd fuel Hfuel) as (maze & t & Hgen).
  destruct (generate_inv w h HC HR true rnd fuel maze t Hgen)
    as (s & Hr & Hst & Ht & Hm & Hmk).
  pose proof (reachable_good w h HC HR true rnd s Hr) as (Hi & _ & Hb).
  destruct (reachable_framed w h HC HR rnd s Hr) as (Hsh & Hlen).
  destruct (reachable_blocked w h HC HR true rnd s Hr)
    as (blocks & Hbl & Hst').
  assert (snapshots t = snapshots (st_trace s)) as Hsnap.
  { rewrite Ht, snapshots_app. simpl. by rewrite app_nil_r. }
  assert (t ≫= io_of_event = snapshots t ≫= frame) as Hshown.
  { rewrite Hsnap, Ht, bind_app, Hbl. simpl. rewrite app_nil_r.
    change (snapshots (Write 1 1 PATH :: concat blocks))
      with (snapshots (concat blocks)).
    by apply blocks_frames. }
  exists maze, t. split; [done|].
  assert (grid_w maze = w * 2 + 1 ∧ grid_h maze = h * 2 + 1) as [-> ->]
    by (by rewrite Hm).
  split; [lia|]. split; [lia|]. split; [|split].
  - rewrite Hsnap. apply Forall_app. split; [done|].
    apply Forall_singleton, Hmk.
  - rewrite Hsnap.
    pose proof (all_visited_size w h HC HR s Hi Hst) as Hsz.
    pose proof (book_draws w h true s Hb). lia.
  - unfold main. rewrite Hts. simpl. fold w h. rewrite Hgen, Hshown.
    split; [by rewrite <-!app_assoc|].
    intros k Hk. rewrite decide_True by done. by rewrite <-!app_assoc.
Qed.

Lemma main_session_witness :
  ∃ maze t,
    generate 900 (λ k, k) (__init__ (MAZE_WIDTH 80) (MAZE_HEIGHT 24)) true =
      Done (maze, t) ∧
    grid_w maze ≤ 80 ∧ grid_h maze ≤ 24 - 1 ∧
    Forall (shaped (grid_w maze) (grid_h maze))
           (snapshots t ++ [grid maze]) ∧
    length (snapshots t) =
      (Z.to_nat (MAZE_WIDTH 80 * MAZE_HEIGHT 24) - 1)%nat ∧
    let shown :=
      opening ++ (snapshots t ≫= frame) ++
      [Stdout (display (grid maze)); Flush; generated] in
    main None (λ k, k) 900 None =
      (OutOfFuel, shown ++ replicate 900 (Pause 1000)) ∧
    ∀ k, (k < 900)%nat →
      main None (λ k, k) 900 (Some k) =
        (Done (), shown ++ replicate k (Pause 1000) ++ closing).
Proof.
  apply (main_session None 80 24 (λ k, k) 900); [reflexivity|lia|lia|].
  vm_compute. lia.
Defined.
